(** * YoloMetricsWrap: the alias-resolution and gallery engine of
      [generate_report.py]

    A shallow embedding of the scanning half of [generate_report.py]
    ([expand_with_box], [encode_image_to_data_url], [collect_config_images],
    [discover_runs] and the [canonical] entry of [alias_payload]) together
    with the properties the specification states about it, followed by
    further properties of the same functions and of [guess_mime_type].

    Modelling conventions.
    - Python [str] is [string]; file names are taken to be ASCII, so
      [str.lower] maps 'A'..'Z' to 'a'..'z' and leaves every other
      character alone.
    - A Python [set] of strings is a [gset string]; the [images] dictionary
      and the per-gallery dictionaries are [gmap]s (only looked up by key);
      the [present] dictionary is an association list with Python's
      insertion-order semantics, because it is iterated with [.items()].
    - The file system is a tree of [node]s; a file whose [file_bytes] is
      [None] is one whose [open]/[read] raises. *)

From Stdlib Require Import String Ascii List Arith NArith ZArith Lia Sorted.
From stdpp Require Import base list strings gmap pretty.

Set Warnings "-register-all".

Open Scope string_scope.
Open Scope list_scope.

(** ** Python string primitives *)

Module PyStr.

Definition lower_ascii (c : ascii) : ascii :=
  let n := N_of_ascii c in
  if ((65 <=? n) && (n <=? 90))%N then ascii_of_N (n + 32) else c.

(** [str.lower] *)
Fixpoint lower (s : string) : string :=
  match s with
  | EmptyString => EmptyString
  | String c r => String (lower_ascii c) (lower r)
  end.

(** [s.startswith(p)] *)
Definition startswith (s p : string) : bool := String.prefix p s.

(** [s.endswith(suf)]: some tail of [s] is [suf]. *)
Fixpoint endswith (s suf : string) : bool :=
  if String.eqb s suf then true
  else match s with
       | EmptyString => false
       | String _ r => endswith r suf
       end.

(** [sub in s] *)
Fixpoint contains (sub s : string) : bool :=
  if String.prefix sub s then true
  else match s with
       | EmptyString => false
       | String _ r => contains sub r
       end.

(** Truthiness of a string: [if s:] *)
Definition truthy (s : string) : bool := negb (String.eqb s "").

(** [l[0]].  Every list indexed this way in the program is a constant,
    non-empty table (see [METRIC_ALIASES_nonempty] below), so the
    [IndexError] branch is never taken; it is rendered as [""]. *)
Definition item0 (l : list string) : string := hd "" l.

End PyStr.
Import PyStr.

(** ** The alias table *)

Inductive metric_key := PR | P | R | F1 | CM | CM_N.

#[global] Instance metric_key_eq_dec : EqDecision metric_key.
Proof. solve_decision. Defined.

(** Iteration order of [BASE_METRIC_STEMS.items()] (and so of
    [METRIC_ALIASES.items()]). *)
Definition metric_keys : list metric_key := [PR; P; R; F1; CM; CM_N].

Definition BASE_METRIC_STEMS (k : metric_key) : list string :=
  match k with
  | PR => ["pr_curve"; "pr-curve"; "prcurve"; "precision_recall_curve";
           "precision-recall"; "pr"]
  | P => ["p_curve"; "p-curve"; "pcurve"; "precision_curve"; "precision";
          "boxpcurve"]
  | R => ["r_curve"; "r-curve"; "rcurve"; "recall_curve"; "recall"]
  | F1 => ["f1_curve"; "f1-curve"; "f1curve"; "f1"]
  | CM => ["confusion_matrix"; "confusion-matrix"; "cm"]
  | CM_N => ["confusion_matrix_normalized";
             "confusion-matrix-normalized";
             "normalized_confusion_matrix";
             "confusion_matrix_norm";
             "confusion-matrix-norm";
             "confusionmatrix_normalized";
             "confusionmatrix-normalized";
             "confusion_matrix_normalised";
             "confusion-matrix-normalised";
             "cm_normalized";
             "cm_norm";
             "cm-normalized";
             "cm-norm"]
  end.

(** The tuple [(s, f"box{s}", f"box_{s}", f"box-{s}")]. *)
Definition box_variants (s : string) : list string :=
  [s; "box" +:+ s; "box_" +:+ s; "box-" +:+ s].

(** Body of the inner loop of [expand_with_box]; the state is
    [(variants, seen)]. *)
Definition add_variant (st : list string * gset string) (v : string)
  : list string * gset string :=
  let low := lower v in
  if decide (low ∈ st.2) then st else (st.1 ++ [v], st.2 ∪ {[low]}).

Definition expand_with_box (stems : list string) : list string :=
  (foldl (λ st s, foldl add_variant st (box_variants s)) ([], ∅) stems).1.

(** The deduplication pass on its own: the [seen]/[variants] bookkeeping of
    [expand_with_box] run over an arbitrary list. *)
Definition dedup_pass (l : list string) : list string :=
  (foldl add_variant ([], ∅) l).1.

Definition METRIC_ALIASES (k : metric_key) : list string :=
  expand_with_box (BASE_METRIC_STEMS k).

Definition ALLOWED_EXTS : list string :=
  [".png"; ".jpg"; ".jpeg"; ".webp"; ".svg"].

(** [stems[0] + ALLOWED_EXTS[0]] as computed by the resolver. *)
Definition canonical_png_key (k : metric_key) : string :=
  item0 (METRIC_ALIASES k) +:+ item0 ALLOWED_EXTS.

(** The [canonical] entry of [alias_payload]:
    [BASE_METRIC_STEMS[k][0] + ALLOWED_EXTS[0]]. *)
Definition payload_canonical (k : metric_key) : string :=
  item0 (BASE_METRIC_STEMS k) +:+ item0 ALLOWED_EXTS.

(** *** Specification-side notions for the expansion *)

(** The first entry of [l] whose lower-cased form is [low]. *)
Definition first_ci (low : string) (l : list string) : option string :=
  head (filter (λ v, lower v = low) l).

(** The number of generated variants that coincide, up to case, with a
    variant generated for an earlier base stem. *)
Fixpoint cross_base_collisions (earlier stems : list string) : nat :=
  match stems with
  | [] => 0
  | s :: rest =>
      length (filter (λ v, lower v ∈ lower <$> earlier) (box_variants s))
      + cross_base_collisions (earlier ++ box_variants s) rest
  end.

(** ** Files, directories and image encoding *)

(** A regular file: its name and, when it can be read, its bytes. *)
Record file := File { file_name : string; file_bytes : option string }.

Inductive node :=
| NFile (f : file)
| NDir (name : string) (children : list node).

Definition node_name (n : node) : string :=
  match n with NFile f => file_name f | NDir name _ => name end.

Definition is_dir (n : node) : bool :=
  match n with NDir _ _ => true | NFile _ => false end.

(** [p.iterdir()] of a directory. *)
Definition node_children (n : node) : list node :=
  match n with NDir _ cs => cs | NFile _ => [] end.

(** [[f for f in cfg_dir.iterdir() if f.is_file()]] *)
Definition files_of (children : list node) : list file :=
  omap (λ n, match n with NFile f => Some f | NDir _ _ => None end) children.

Definition b64_alphabet : string :=
  "ABCDEFGHIJKLMNOPQRSTUVWXYZabcdefghijklmnopqrstuvwxyz0123456789+/".

Definition b64_char (n : N) : ascii :=
  match String.get (N.to_nat n) b64_alphabet with
  | Some c => c
  | None => "="%char
  end.

(** [base64.b64encode(...).decode("ascii")] *)
Fixpoint b64encode (s : string) : string :=
  match s with
  | EmptyString => EmptyString
  | String a EmptyString =>
      let x := N_of_ascii a in
      String (b64_char (x / 4)) (String (b64_char ((x mod 4) * 16)) "==")
  | String a (String b EmptyString) =>
      let x := N_of_ascii a in
      let y := N_of_ascii b in
      String (b64_char (x / 4))
        (String (b64_char ((x mod 4) * 16 + y / 16))
           (String (b64_char ((y mod 16) * 4)) "="))
  | String a (String b (String c r)) =>
      let x := N_of_ascii a in
      let y := N_of_ascii b in
      let z := N_of_ascii c in
      String (b64_char (x / 4))
        (String (b64_char ((x mod 4) * 16 + y / 16))
           (String (b64_char ((y mod 16) * 4 + z / 64))
              (String (b64_char (z mod 64)) (b64encode r))))%N
  end.

(** The part of [s] from its last ['.'] on, if it has one. *)
Fixpoint from_last_dot (s : string) : option string :=
  match s with
  | EmptyString => None
  | String c r =>
      match from_last_dot r with
      | Some t => Some t
      | None => if Ascii.eqb c "." then Some s else None
      end
  end.

(** [Path.suffix]: [name[i:]] for [i = name.rfind('.')] when
    [0 < i < len(name) - 1], else the empty string. *)
Definition path_suffix (name : string) : string :=
  match name with
  | EmptyString => ""
  | String _ r =>
      match from_last_dot r with
      | Some t => if Nat.eqb (String.length t) 1 then "" else t
      | None => ""
      end
  end.

Definition guess_mime_type (name : string) : string :=
  let suf := lower (path_suffix name) in
  if String.eqb suf ".png" then "image/png"
  else if String.eqb suf ".jpg" || String.eqb suf ".jpeg" then "image/jpeg"
  else if String.eqb suf ".webp" then "image/webp"
  else if String.eqb suf ".svg" then "image/svg+xml"
  else "application/octet-stream".

(** [None] when the file is gone or reading it raises. *)
Definition encode_image_to_data_url (image_path : file) : option string :=
  match file_bytes image_path with
  | None => None
  | Some bytes =>
      Some ("data:" +:+ guess_mime_type (file_name image_path)
            +:+ ";base64," +:+ b64encode bytes)
  end.

(** ** Python dictionaries iterated in insertion order *)

Fixpoint dict_set {V : Type} (k : string) (v : V) (d : list (string * V))
  : list (string * V) :=
  match d with
  | [] => [(k, v)]
  | (k', v') :: r =>
      if String.eqb k k' then (k, v) :: r else (k', v') :: dict_set k v r
  end.

Fixpoint dict_get {V : Type} (k : string) (d : list (string * V)) : option V :=
  match d with
  | [] => None
  | (k', v') :: r => if String.eqb k k' then Some v' else dict_get k r
  end.

(** [{f.name.lower(): f for f in cfg_dir.iterdir() if f.is_file()}] *)
Definition present_of (files : list file) : list (string * file) :=
  foldl (λ d f, dict_set (lower (file_name f)) f d) [] files.

(** ** Metric resolution *)

(** Values stored in [images]. *)
Inductive value :=
| VNone
| VStr (url : string)
| VList (urls : list string)
| VDict (batches : gmap string (list string)).

Definition value_of (data_url : option string) : value :=
  match data_url with None => VNone | Some u => VStr u end.

(** [images.get(key)] *)
Definition py_get (images : gmap string value) (key : string) : value :=
  default VNone (images !! key).

(** [if data_url:] on an [Optional[str]] *)
Definition url_truthy (data_url : option string) : bool :=
  match data_url with None => false | Some u => truthy u end.

(** The inner loop [for ext in ALLOWED_EXTS]: [Some (data_url, ext)] when it
    leaves through [break], [None] when it runs to the end. *)
Fixpoint scan_exts (present : list (string * file)) (stem : string)
    (exts : list string) : option (option string * string) :=
  match exts with
  | [] => None
  | ext :: rest =>
      let candidate := stem +:+ ext in
      match dict_get (lower candidate) present with
      | Some f => Some (encode_image_to_data_url f, ext)
      | None => scan_exts present stem rest
      end
  end.

(** The outer loop [for stem in stems], on the state
    [(data_url, found_ext)]. *)
Fixpoint scan_stems (present : list (string * file)) (stems : list string)
    (st : option string * option string) : option string * option string :=
  match stems with
  | [] => st
  | stem :: rest =>
      let st' := match scan_exts present stem ALLOWED_EXTS with
                 | Some (data_url, ext) => (data_url, Some ext)
                 | None => st
                 end in
      if url_truthy st'.1 then st' else scan_stems present rest st'
  end.

Definition resolve_metric (present : list (string * file))
    (stems : list string) : option string * option string :=
  scan_stems present stems (None, None).

(** One iteration of [for metric_key, stems in METRIC_ALIASES.items()]. *)
Definition metric_step (present : list (string * file))
    (images : gmap string value) (k : metric_key) : gmap string value :=
  let stems := METRIC_ALIASES k in
  let '(data_url, found_ext) := resolve_metric present stems in
  let canonical_png_key := item0 stems +:+ item0 ALLOWED_EXTS in
  let images := <[canonical_png_key := value_of data_url]> images in
  match found_ext with
  | Some ext =>
      if truthy ext && negb (String.eqb ext (item0 ALLOWED_EXTS))
      then <[item0 stems +:+ ext := value_of data_url]> images
      else images
  | None => images
  end.

Definition resolve_metrics (present : list (string * file))
  : gmap string value :=
  foldl (metric_step present) ∅ metric_keys.

Definition is_none (v : value) : bool :=
  match v with VNone => true | _ => false end.

(** The fallback: if the normalised confusion matrix is missing, reuse the
    raw one. *)
Definition cm_fallback (images : gmap string value) : gmap string value :=
  let cm_key := item0 (METRIC_ALIASES CM) +:+ item0 ALLOWED_EXTS in
  let cmn_key := item0 (METRIC_ALIASES CM_N) +:+ item0 ALLOWED_EXTS in
  if is_none (py_get images cmn_key) && negb (is_none (py_get images cm_key))
  then <[cmn_key := py_get images cm_key]> images
  else images.

(** ** Galleries *)

Record galleries := Galleries {
  val_labels : list string;
  val_preds : list string;
  all_imgs : list string
}.

Definition is_image (name : string) : bool :=
  existsb (endswith name) ALLOWED_EXTS.

(** One iteration of [for name, file_path in present.items()]. *)
Definition gallery_step (g : galleries) (item : string * file) : galleries :=
  let '(name, file_path) := item in
  if negb (is_image name) then g
  else
    let lower_name := lower name in
    let url := encode_image_to_data_url file_path in
    match url with
    | None => g
    | Some u =>
        if negb (truthy u) then g
        else if startswith lower_name "val_batch"
                && contains "_labels" lower_name
        then Galleries (val_labels g ++ [u]) (val_preds g) (all_imgs g)
        else if startswith lower_name "val_batch"
                && contains "_pred" lower_name
        then Galleries (val_labels g) (val_preds g ++ [u]) (all_imgs g)
        else Galleries (val_labels g) (val_preds g) (all_imgs g ++ [u])
    end.

Definition classify (present : list (string * file)) : galleries :=
  foldl gallery_step (Galleries [] [] []) present.

(** [m.setdefault(key, []).append(item)] *)
Definition setdefault_append (key item : string)
    (m : gmap string (list string)) : gmap string (list string) :=
  <[key := default [] (m !! key) ++ [item]]> m.

(** The regrouping loop: [key = "batch_" + str(len(m) + 1)]. *)
Definition regroup (items : list string) : gmap string (list string) :=
  foldl (λ m item,
           let key := "batch_" +:+ pretty (size m + 1) in
           setdefault_append key item m)
        ∅ items.

(** [if items: images[tag] = m if m else items] *)
Definition store_gallery (tag : string) (items : list string)
    (images : gmap string value) : gmap string value :=
  match items with
  | [] => images
  | _ :: _ =>
      let m := regroup items in
      <[tag := if decide (m = ∅) then VList items else VDict m]> images
  end.

(** The body of [for cfg_dir in config_dirs], given the files of
    [cfg_dir]: the finished [images] dictionary. *)
Definition config_images (files : list file) : gmap string value :=
  let present := present_of files in
  let images := resolve_metrics present in
  let images := cm_fallback images in
  let g := classify present in
  let images := store_gallery "VAL_LABELS" (val_labels g) images in
  let images := store_gallery "VAL_PRED" (val_preds g) images in
  images.

(** ** Configuration and run discovery *)

Record ConfigImages := mkConfigImages {
  config_name : string;
  images : gmap string value
}.

Section Sort.
Context {A : Type} (key : A → string).

(** [l.sort(key=key)]: a stable sort on [key]. *)
Fixpoint insert_by (x : A) (l : list A) : list A :=
  match l with
  | [] => [x]
  | y :: r =>
      if String.leb (key x) (key y) then x :: l else y :: insert_by x r
  end.

Definition sort_by (l : list A) : list A := foldr insert_by [] l.
End Sort.

Definition is_config_dir (p : node) : bool :=
  is_dir p && endswith (node_name p) "_config".

Definition collect_config_images (root_children : list node)
  : list ConfigImages :=
  let config_dirs := filter (λ p, is_config_dir p = true) root_children in
  let config_dirs := sort_by (λ p, lower (node_name p)) config_dirs in
  (λ cfg_dir,
     mkConfigImages (node_name cfg_dir)
       (config_images (files_of (node_children cfg_dir))))
  <$> config_dirs.

Definition path := list string.

Record RunGroup := mkRunGroup {
  run_name : string;
  run_path : path;
  configs : list ConfigImages
}.

(** [any(c.is_dir() and c.name.endswith("_config") for c in p.iterdir())],
    [False] when [iterdir] raises. *)
Definition is_run_dir (p : node) : bool :=
  match p with
  | NDir _ cs => existsb is_config_dir cs
  | NFile _ => false
  end.

(** [str(p)] of an absolute path. *)
Definition path_str (p : path) : string := "/" +:+ String.concat "/" p.

(** The candidate list: the root itself, then its immediate
    subdirectories.  [root] sits at [root_path]. *)
Definition run_candidates (root_path : path) (root : node)
  : list (string * path * node) :=
  (if is_run_dir root
   then [(if truthy (node_name root) then node_name root
          else path_str root_path,
          root_path, root)]
   else [])
  ++ omap (λ child,
             if is_dir child && is_run_dir child
             then Some (node_name child, root_path ++ [node_name child],
                        child)
             else None)
          (node_children root).

(** One iteration of the de-duplication loop, on [(seen, runs)]. *)
Definition dedup_step (st : gset path * list RunGroup)
    (c : string * path * node) : gset path * list RunGroup :=
  let '(name, p, n) := c in
  if decide (p ∈ st.1) then st
  else
    let configs := collect_config_images (node_children n) in
    (st.1 ∪ {[p]},
     match configs with
     | [] => st.2
     | _ :: _ => st.2 ++ [mkRunGroup name p configs]
     end).

(** [discover_runs(root)] for the directory entry [root] found in the
    directory [parent]; [None] when [root.iterdir()] raises because [root]
    is not a directory. *)
Definition discover_runs (parent : path) (root : node)
  : option (list RunGroup) :=
  match root with
  | NFile _ => None
  | NDir _ _ =>
      let root_path := parent ++ [node_name root] in
      let candidates := run_candidates root_path root in
      let runs := (foldl dedup_step (∅, []) candidates).2 in
      Some (sort_by (λ r, lower (run_name r)) runs)
  end.

(** ** Specification-side notions for resolution and galleries *)

(** All [(stem, extension)] pairs, stem-major and extension-minor. *)
Definition candidates (stems : list string) : list (string * string) :=
  stem ← stems; ext ← ALLOWED_EXTS; [(stem, ext)].

(** Some file of the listing is called [candidate], up to case. *)
Definition name_present (files : list file) (candidate : string) : Prop :=
  lower candidate ∈ (λ f, lower (file_name f)) <$> files.

#[global] Instance name_present_dec files candidate :
  Decision (name_present files candidate).
Proof. unfold name_present. apply _. Defined.

(** The first candidate, in precedence order, that names a file. *)
Definition first_match (files : list file) (stems : list string)
  : option (string * string) :=
  head (filter (λ c, name_present files (c.1 +:+ c.2)) (candidates stems)).

(** The file a lower-cased name denotes: the one enumerated last among
    those whose names agree with it up to case. *)
Definition file_named (files : list file) (key : string) : option file :=
  last (filter (λ f, lower (file_name f) = key) files).

(** The keys under which metric [k] can be stored. *)
Definition metric_keys_of (k : metric_key) : list string :=
  (λ ext, item0 (METRIC_ALIASES k) +:+ ext) <$> ALLOWED_EXTS.

(** The record of a directory in which no metric resolves and no gallery is
    populated. *)
Definition absent_record : gmap string value :=
  list_to_map ((λ k, (canonical_png_key k, VNone)) <$> metric_keys).

Inductive gallery_kind := Labeled | Predicted | Generic.

#[global] Instance gallery_kind_eq_dec : EqDecision gallery_kind.
Proof. solve_decision. Defined.

(** The three classification rules, first match wins. *)
Definition classify_name (lower_name : string) : gallery_kind :=
  if startswith lower_name "val_batch" && contains "_labels" lower_name
  then Labeled
  else if startswith lower_name "val_batch" && contains "_pred" lower_name
  then Predicted
  else Generic.

(** The references of the readable image files of one kind, in encounter
    order. *)
Definition gallery_of (kind : gallery_kind) (present : list (string * file))
  : list string :=
  omap (λ item : string * file,
          if is_image item.1 then
            match encode_image_to_data_url item.2 with
            | Some u =>
                if decide (classify_name (lower item.1) = kind)
                then Some u else None
            | None => None
            end
          else None)
       present.

(** One single-image category per reference, keyed [batch_1], [batch_2],
    ... in order. *)
Definition batch_map (urls : list string) : gmap string (list string) :=
  list_to_map (imap (λ i u, ("batch_" +:+ pretty (i + 1), [u])) urls).

(** *** Further specification-side notions *)

(** The deduplication pass as a recursion over the input. *)
Fixpoint keep (seen : gset string) (l : list string) : list string :=
  match l with
  | [] => []
  | v :: r =>
      if decide (lower v ∈ seen) then keep seen r
      else v :: keep (seen ∪ {[lower v]}) r
  end.

(** The key of the i-th category, counting from zero. *)
Definition batch_key (i : nat) : string := "batch_" +:+ pretty (i + 1).

(** No file of the listing has an image extension. *)
Definition no_images (files : list file) : Prop :=
  ∀ f, f ∈ files → is_image (lower (file_name f)) = false.

#[global] Instance value_eq_dec : EqDecision value.
Proof. solve_decision. Defined.

(** ** Example directories *)

Definition png_url (bytes : string) : string :=
  "data:image/png;base64," +:+ b64encode bytes.

Definition jpeg_url (bytes : string) : string :=
  "data:image/jpeg;base64," +:+ b64encode bytes.

(** [boxP_curve.PNG] and [precision.png] in one directory. *)
Definition dir_precision (b1 b2 : string) : list file :=
  [File "precision.png" (Some b2); File "boxP_curve.PNG" (Some b1)].

(** A PR curve saved as JPEG only. *)
Definition dir_pr_jpg : list file := [File "PR_curve.JPG" (Some "abc")].

(** Only the raw confusion matrix. *)
Definition dir_cm (bytes : option string) : list file :=
  [File "confusion_matrix.png" bytes].

(** A file is readable when reading its bytes succeeds. *)
Definition readable (f : file) : bool :=
  match file_bytes f with Some _ => true | None => false end.

(** Two label mosaics of validation batches. *)
Definition dir_val_labels : list file :=
  [File "val_batch0_labels.jpg" (Some "a");
   File "val_batch1_labels.jpg" (Some "b")].

(** One image that is neither a metric plot nor a validation batch. *)
Definition dir_extra : list file := [File "extra.png" (Some "abc")].

(** An unreadable PNG beside a readable JPEG of the same stem. *)
Definition dir_pr_unreadable : list file :=
  [File "pr_curve.png" None; File "pr_curve.jpg" (Some "abc")].

(** *** Specification-side notions for run discovery *)

(** The run built from one candidate. *)
Definition mk_run (c : string * path * node) : RunGroup :=
  mkRunGroup c.1.1 c.1.2 (collect_config_images (node_children c.2)).

(** The candidates whose path was not met before, in order. *)
Fixpoint keep_paths (seen : gset path) (cs : list (string * path * node))
  : list (string * path * node) :=
  match cs with
  | [] => []
  | c :: rest =>
      if decide (c.1.2 ∈ seen) then keep_paths seen rest
      else c :: keep_paths (seen ∪ {[c.1.2]}) rest
  end.

(** Runs in case-insensitive order of their names. *)
Definition runs_sorted (runs : list RunGroup) : Prop :=
  StronglySorted
    (λ a b, String.le (lower (run_name a)) (lower (run_name b))) runs.

(** Two nested run folders, enumerated in reverse order. *)
Definition tree_two_runs : node :=
  NDir "root"
    [NDir "run2" [NDir "C_config" [NFile (File "pr_curve.png" (Some "abc"))]];
     NFile (File "notes.txt" (Some "n"));
     NDir "run1" [NDir "B_config" []]].

(** A root that holds a configuration folder itself. *)
Definition tree_flat : node :=
  NDir "root" [NDir "A_config" []; NDir "logs" []].

(** *** Specification-side notions for the resolver on unreadable files *)

(** The file a stem selects: the file named by the first extension, in
    precedence order, for which stem + extension names a file. *)
Definition stem_hit (files : list file) (stem : string)
  : option (file * string) :=
  ext ← head (filter (λ ext, name_present files (stem +:+ ext)) ALLOWED_EXTS);
  f ← file_named files (lower (stem +:+ ext));
  Some (f, ext).

(** The stem selects nothing that can be read. *)
Definition no_readable_hit (files : list file) (stem : string) : Prop :=
  ∀ f ext, stem_hit files stem = Some (f, ext) →
           encode_image_to_data_url f = None.

(** *** Specification-side notions for record entries *)

(** A reference is the encoding of one of the files. *)
Definition encodes (files : list file) (url : string) : Prop :=
  ∃ f, f ∈ files ∧ encode_image_to_data_url f = Some url.

(** The value of a metric key: the absent marker or the encoding of a file
    of the directory. *)
Definition metric_value (files : list file) (v : value) : Prop :=
  v = VNone ∨ ∃ url, v = VStr url ∧ encodes files url.

(** The references of all readable image files, in encounter order. *)
Definition image_urls (present : list (string * file)) : list string :=
  omap (λ item : string * file,
          if is_image item.1 then encode_image_to_data_url item.2 else None)
       present.

(** *** Specification-side notions for MIME types *)

(** The MIME type that goes with each allowed extension. *)
Definition mime_table : list (string * string) :=
  [(".png", "image/png"); (".jpg", "image/jpeg"); (".jpeg", "image/jpeg");
   (".webp", "image/webp"); (".svg", "image/svg+xml")].

(** [url] and [ext] come from a readable file named by a stem of [stems]
    and the extension [ext]: the reference is a base64 data URL with the
    MIME type of [ext]. *)
Definition resolved_from (files : list file) (stems : list string)
    (url : string) (found_ext : option string) : Prop :=
  ∃ stem ext f bytes mime,
    found_ext = Some ext ∧ stem ∈ stems ∧ ext ∈ ALLOWED_EXTS
    ∧ f ∈ files ∧ lower (file_name f) = lower (stem +:+ ext)
    ∧ file_bytes f = Some bytes
    ∧ (ext, mime) ∈ mime_table
    ∧ url = "data:" +:+ mime +:+ ";base64," +:+ b64encode bytes.

(** *** A decoder for the base64 alphabet *)

Fixpoint index_of (c : ascii) (s : string) : nat :=
  match s with
  | EmptyString => 0
  | String d r => if Ascii.eqb c d then 0 else S (index_of c r)
  end.

Definition b64_index (c : ascii) : N := N.of_nat (index_of c b64_alphabet).

(** Inverse of [b64encode] on padded base64 text. *)
Fixpoint b64decode (s : string) : string :=
  match s with
  | String c1 (String c2 (String c3 (String c4 r))) =>
      let i1 := b64_index c1 in
      let i2 := b64_index c2 in
      let i3 := b64_index c3 in
      let i4 := b64_index c4 in
      let x := ascii_of_N (i1 * 4 + i2 / 16) in
      let y := ascii_of_N ((i2 mod 16) * 16 + i3 / 4) in
      let z := ascii_of_N ((i3 mod 4) * 64 + i4) in
      if Ascii.eqb c3 "=" then String x ""
      else if Ascii.eqb c4 "=" then String x (String y "")
      else String x (String y (String z (b64decode r)))
  | _ => ""
  end.

(** * Properties *)

(** * Proofs *)

(** ** Strings *)

Lemma lower_app (a b : string) : lower (a +:+ b) = lower a +:+ lower b.
Proof. induction a as [|c a IH]; simpl; [reflexivity | now rewrite IH]. Qed.

Lemma lower_ascii_idem (c : ascii) : lower_ascii (lower_ascii c) = lower_ascii c.
Proof. destruct c as [[] [] [] [] [] [] [] []]; reflexivity. Qed.

Lemma lower_idem (s : string) : lower (lower s) = lower s.
Proof.
  induction s as [|c s IH]; simpl; [reflexivity|].
  now rewrite lower_ascii_idem, IH.
Qed.

Lemma length_lower (s : string) : String.length (lower s) = String.length s.
Proof. induction s as [|c s IH]; simpl; [reflexivity | now rewrite IH]. Qed.

Ltac string_neq H :=
  cbv beta iota delta [append] in H;
  first [ congruence
        | apply (f_equal String.length) in H; simpl in H; lia ].

Lemma box_variants_lower (s : string) :
  lower <$> box_variants s =
  [lower s; "box" +:+ lower s; "box_" +:+ lower s; "box-" +:+ lower s].
Proof. unfold box_variants; simpl; now rewrite !lower_app. Qed.

Lemma box_variants_NoDup (s : string) : NoDup (lower <$> box_variants s).
Proof.
  rewrite box_variants_lower. simpl.
  repeat (apply NoDup_cons; split);
    rewrite ?elem_of_cons, ?elem_of_nil; try apply NoDup_nil_2;
    intros H; repeat (destruct H as [H|H]); try done; string_neq H.
Qed.

(** ** The expansion *)

Lemma foldl_add_variant (l : list string) :
  ∀ vs seen,
    foldl add_variant (vs, seen) l
    = (vs ++ keep seen l, seen ∪ list_to_set (lower <$> l)).
Proof.
  induction l as [|v r IH]; intros vs seen; simpl.
  - rewrite app_nil_r. f_equal. set_solver.
  - unfold add_variant at 2; simpl. destruct (decide (lower v ∈ seen)).
    + rewrite IH. f_equal. set_solver.
    + rewrite IH, <- app_assoc. simpl. f_equal. set_solver.
Qed.

Lemma foldl_bind {A B C} (f : A → C → A) (g : B → list C) (l : list B) :
  ∀ a, foldl (λ a x, foldl f a (g x)) a l = foldl f a (l ≫= g).
Proof.
  induction l as [|x l IH]; intros a; simpl; [reflexivity|].
  now rewrite foldl_app, IH.
Qed.

Lemma dedup_pass_keep (l : list string) : dedup_pass l = keep ∅ l.
Proof. unfold dedup_pass. now rewrite foldl_add_variant. Qed.

Lemma expand_with_box_keep (stems : list string) :
  expand_with_box stems = keep ∅ (stems ≫= box_variants).
Proof.
  unfold expand_with_box. rewrite foldl_bind. apply dedup_pass_keep.
Qed.

Lemma keep_sublist (l : list string) : ∀ seen, sublist (keep seen l) l.
Proof.
  induction l as [|v r IH]; intros seen; simpl; [constructor|].
  destruct (decide _); [apply sublist_cons | apply sublist_skip]; apply IH.
Qed.

Lemma keep_fresh (l : list string) :
  ∀ seen w, w ∈ keep seen l → lower w ∉ seen.
Proof.
  induction l as [|v r IH]; intros seen w; simpl; [by rewrite elem_of_nil|].
  destruct (decide _) as [|Hn]; [apply IH|].
  rewrite elem_of_cons. intros [->|Hw]; [done|].
  apply IH in Hw. set_solver.
Qed.

Lemma keep_NoDup (l : list string) : ∀ seen, NoDup (lower <$> keep seen l).
Proof.
  induction l as [|v r IH]; intros seen; simpl; [apply NoDup_nil_2|].
  destruct (decide _); [apply IH|].
  rewrite fmap_cons. apply NoDup_cons; split; [|apply IH].
  rewrite list_elem_of_fmap. intros (w & Hlow & Hw).
  apply keep_fresh in Hw. set_solver.
Qed.

Lemma keep_covers (l : list string) :
  ∀ seen v, v ∈ l → lower v ∈ seen ∨ ∃ w, w ∈ keep seen l ∧ lower w = lower v.
Proof.
  induction l as [|x r IH]; intros seen v; simpl; [by rewrite elem_of_nil|].
  rewrite elem_of_cons. intros [->|Hv].
  - destruct (decide _); [by left|]. right. exists x. split; [left|done].
  - destruct (decide (lower x ∈ seen)) as [Hx|Hx].
    + apply IH, Hv.
    + destruct (IH (seen ∪ {[lower x]}) v Hv) as [Hin|(w & Hw & Hlow)].
      * apply elem_of_union in Hin as [Hin|Hin]; [by left|].
        apply elem_of_singleton in Hin. right. exists x.
        split; [left|done].
      * right. exists w. split; [by right|done].
Qed.

Lemma keep_first_ci (l : list string) :
  ∀ seen w, w ∈ keep seen l → first_ci (lower w) l = Some w.
Proof.
  unfold first_ci.
  induction l as [|x r IH]; intros seen w; simpl; [by rewrite elem_of_nil|].
  destruct (decide (lower x ∈ seen)) as [Hx|Hx].
  - intros Hw. rewrite filter_cons.
    destruct (decide (lower x = lower w)) as [Heq|_].
    + apply keep_fresh in Hw. congruence.
    + eapply IH, Hw.
  - rewrite elem_of_cons, filter_cons. intros [->|Hw].
    + by rewrite decide_True.
    + destruct (decide (lower x = lower w)) as [Heq|_].
      * apply keep_fresh in Hw. set_solver.
      * eapply IH, Hw.
Qed.

Lemma filter_ext_elem {A} (P Q : A → Prop) `{∀ x, Decision (P x)}
    `{∀ x, Decision (Q x)} (l : list A) :
  (∀ x, x ∈ l → P x ↔ Q x) → filter P l = filter Q l.
Proof.
  induction l as [|x l IH]; intros HPQ; [reflexivity|].
  rewrite !filter_cons.
  rewrite IH by (intros y Hy; apply HPQ; by right).
  destruct (decide (P x)) as [HP|HP], (decide (Q x)) as [HQ|HQ];
    try reflexivity; exfalso; apply (HPQ x) in HP || apply HP, (HPQ x), HQ;
    try done; by left.
Qed.

Lemma keep_filter (l : list string) :
  ∀ seen, NoDup (lower <$> l) → keep seen l = filter (λ v, lower v ∉ seen) l.
Proof.
  induction l as [|x r IH]; intros seen Hnd; simpl; [reflexivity|].
  rewrite fmap_cons in Hnd. apply NoDup_cons in Hnd as [Hx Hnd].
  rewrite filter_cons. destruct (decide (lower x ∈ seen)) as [Hs|Hs].
  - rewrite decide_False by (intros ?; done). by apply IH.
  - rewrite decide_True by done. f_equal. rewrite IH by done.
    apply filter_ext_elem. intros v Hv. split; [set_solver|].
    intros Hn Hin. apply elem_of_union in Hin as [Hin|Hin]; [done|].
    apply elem_of_singleton in Hin. apply Hx. rewrite <- Hin.
    by apply list_elem_of_fmap_2.
Qed.

Lemma keep_app (l1 l2 : list string) :
  ∀ seen,
    keep seen (l1 ++ l2)
    = keep seen l1 ++ keep (seen ∪ list_to_set (lower <$> l1)) l2.
Proof.
  induction l1 as [|x r IH]; intros seen; simpl.
  - f_equal. set_solver.
  - destruct (decide _).
    + rewrite IH. do 2 f_equal. set_solver.
    + rewrite IH. simpl. do 3 f_equal. set_solver.
Qed.

Lemma length_filter_split {A} (P : A → Prop) `{∀ x, Decision (P x)}
    (l : list A) :
  length (filter P l) + length (filter (λ x, ¬ P x) l) = length l.
Proof.
  induction l as [|x l IH]; [reflexivity|].
  rewrite !filter_cons. destruct (decide (P x)).
  - rewrite decide_False by tauto. simpl. lia.
  - rewrite decide_True by done. simpl. lia.
Qed.

Lemma keep_length_cross (stems : list string) :
  ∀ earlier,
    length (keep (list_to_set (lower <$> earlier)) (stems ≫= box_variants))
    + cross_base_collisions earlier stems
    = 4 * length stems.
Proof.
  induction stems as [|s rest IH]; intros earlier; [reflexivity|].
  rewrite bind_cons, keep_app, length_app.
  cbn [cross_base_collisions].
  rewrite <- list_to_set_app_L, <- fmap_app.
  specialize (IH (earlier ++ box_variants s)).
  rewrite keep_filter by apply box_variants_NoDup.
  pose proof (length_filter_split
                (λ v, lower v ∈ lower <$> earlier) (box_variants s)) as Hsplit.
  rewrite (filter_ext_elem (λ v, lower v ∉ _)
             (λ v, ¬ lower v ∈ lower <$> earlier)).
  2:{ intros v _. by rewrite elem_of_list_to_set. }
  simpl length in *. lia.
Qed.

Lemma keep_idem (l : list string) :
  ∀ seen,
    NoDup (lower <$> l) → (∀ v, v ∈ l → lower v ∉ seen) → keep seen l = l.
Proof.
  intros seen Hnd Hfresh. rewrite keep_filter by done.
  induction l as [|x r IH]; [reflexivity|].
  rewrite fmap_cons in Hnd. apply NoDup_cons in Hnd as [_ Hnd].
  rewrite filter_cons, decide_True by (apply Hfresh; by left).
  f_equal. apply IH; [done|]. intros v Hv. apply Hfresh. by right.
Qed.

(** C2 *)
Theorem expand_with_box_spec (stems : list string) :
  let all := stems ≫= box_variants in
  let out := expand_with_box stems in
  out = dedup_pass all
  ∧ sublist out all
  ∧ (∀ v, v ∈ all → ∃ w, w ∈ out ∧ lower w = lower v)
  ∧ (∀ w, w ∈ out → first_ci (lower w) all = Some w)
  ∧ NoDup (lower <$> out)
  ∧ length out + cross_base_collisions [] stems = 4 * length stems
  ∧ dedup_pass out = out.
Proof.
  intros all out. subst out all.
  rewrite !dedup_pass_keep, !expand_with_box_keep.
  repeat split.
  - apply keep_sublist.
  - intros v Hv. destruct (keep_covers _ ∅ v Hv) as [Hin|Hex]; [set_solver|done].
  - intros w Hw. eapply keep_first_ci, Hw.
  - apply keep_NoDup.
  - apply (keep_length_cross stems []).
  - apply keep_idem; [apply keep_NoDup|]. intros v _. set_solver.
Qed.

Lemma expand_with_box_head (stems : list string) :
  head (expand_with_box stems) = head stems.
Proof.
  rewrite expand_with_box_keep. destruct stems as [|s rest]; [reflexivity|].
  rewrite bind_cons. simpl. rewrite decide_False by set_solver. reflexivity.
Qed.

Lemma item0_head (l : list string) : item0 l = default "" (head l).
Proof. by destruct l. Qed.

(** C10 *)
Theorem canonical_keys_agree :
  (∀ stems, head (expand_with_box stems) = head stems)
  ∧ ∀ k,
      head (METRIC_ALIASES k) = head (BASE_METRIC_STEMS k)
      ∧ is_Some (head (BASE_METRIC_STEMS k))
      ∧ canonical_png_key k = payload_canonical k.
Proof.
  split; [apply expand_with_box_head|]. intros k.
  unfold canonical_png_key, payload_canonical, METRIC_ALIASES.
  rewrite !item0_head, expand_with_box_head.
  repeat split. by destruct k.
Qed.

(** ** The [present] dictionary *)

Lemma dict_get_set {V} (k k' : string) (v : V) (d : list (string * V)) :
  dict_get k (dict_set k' v d)
  = if decide (k = k') then Some v else dict_get k d.
Proof.
  induction d as [|[k0 v0] d IH]; simpl.
  - destruct (String.eqb_spec k k'), (decide (k = k')); congruence.
  - destruct (String.eqb_spec k' k0) as [->|Hne]; simpl.
    + destruct (String.eqb_spec k k0), (decide (k = k0)); congruence.
    + destruct (String.eqb_spec k k0) as [->|Hne'].
      * by rewrite decide_False.
      * apply IH.
Qed.

Lemma file_named_snoc (files : list file) (f : file) (key : string) :
  file_named (files ++ [f]) key
  = if decide (key = lower (file_name f)) then Some f
    else file_named files key.
Proof.
  unfold file_named. rewrite filter_app, filter_cons, filter_nil.
  destruct (decide (lower (file_name f) = key)) as [<-|Hne].
  - by rewrite decide_True, last_snoc.
  - rewrite decide_False by congruence. by rewrite app_nil_r.
Qed.

Lemma present_of_snoc (files : list file) (f : file) :
  present_of (files ++ [f])
  = dict_set (lower (file_name f)) f (present_of files).
Proof. unfold present_of. by rewrite foldl_snoc. Qed.

(** The lookup holds, under each lower-cased name, the file enumerated
    last among those with that name. *)
Lemma dict_get_present_of (files : list file) (key : string) :
  dict_get key (present_of files) = file_named files key.
Proof.
  induction files as [|f files IH] using rev_ind; [reflexivity|].
  by rewrite present_of_snoc, dict_get_set, file_named_snoc, IH.
Qed.

Lemma file_named_Some (files : list file) (key : string) (f : file) :
  file_named files key = Some f → f ∈ files ∧ lower (file_name f) = key.
Proof.
  unfold file_named. intros Hl. apply last_Some in Hl as [l' Hl].
  assert (f ∈ filter (λ f, lower (file_name f) = key) files) as Hin.
  { rewrite Hl. apply elem_of_app. right. by left. }
  by apply list_elem_of_filter in Hin as [? ?].
Qed.

Lemma name_present_file_named (files : list file) (c : string) :
  name_present files c ↔ is_Some (file_named files (lower c)).
Proof.
  unfold name_present, file_named. rewrite list_elem_of_fmap. split.
  - intros (f & Heq & Hin).
    destruct (last _) as [g|] eqn:Hl; [by eexists|].
    apply last_None in Hl.
    assert (f ∈ filter (λ f, lower (file_name f) = lower c) files) as Hf.
    { apply list_elem_of_filter. by split. }
    rewrite Hl in Hf. by apply elem_of_nil in Hf.
  - intros [f Hf]. apply file_named_Some in Hf as [? ?]. by exists f.
Qed.

(** ** The resolver *)

Lemma encode_truthy (f : file) (u : string) :
  encode_image_to_data_url f = Some u → truthy u = true.
Proof.
  unfold encode_image_to_data_url. destruct (file_bytes f); [|done].
  intros [= <-]. reflexivity.
Qed.

Lemma head_filter_pair {A B} (P : A * B → Prop) `{∀ x, Decision (P x)}
    (a : A) (l : list B) :
  head (filter P (l ≫= λ b, [(a, b)]))
  = (λ b, (a, b)) <$> head (filter (λ b, P (a, b)) l).
Proof.
  induction l as [|b l IH]; [reflexivity|].
  rewrite bind_cons. simpl. rewrite !filter_cons.
  destruct (decide (P (a, b))); [reflexivity|apply IH].
Qed.

(** [first_match], one stem at a time. *)
Lemma first_match_cons (files : list file) (s : string) (rest : list string) :
  first_match files (s :: rest)
  = match head (filter (λ ext, name_present files (s +:+ ext)) ALLOWED_EXTS)
    with
    | Some ext => Some (s, ext)
    | None => first_match files rest
    end.
Proof.
  unfold first_match, candidates. rewrite bind_cons, filter_app, head_app.
  rewrite (head_filter_pair (λ c, name_present files (c.1 +:+ c.2))).
  by destruct (head _).
Qed.

(** The inner loop stops at the first extension that names a file. *)
Lemma scan_exts_spec (files : list file) (stem : string) (exts : list string) :
  scan_exts (present_of files) stem exts
  = ext ← head (filter (λ ext, name_present files (stem +:+ ext)) exts);
    f ← file_named files (lower (stem +:+ ext));
    Some (encode_image_to_data_url f, ext).
Proof.
  induction exts as [|ext exts IH]; [reflexivity|].
  simpl. rewrite dict_get_present_of, filter_cons.
  destruct (decide (name_present files (stem +:+ ext))) as [Hp|Hp].
  - apply name_present_file_named in Hp as [f Hf]. simpl. by rewrite Hf.
  - destruct (file_named files _) as [f|] eqn:Hf; [|apply IH].
    exfalso. apply Hp, name_present_file_named. by eexists.
Qed.

Lemma scan_stems_first_match (files : list file) (stems : list string) :
  ∀ st stem ext f url,
    url_truthy st.1 = false →
    first_match files stems = Some (stem, ext) →
    file_named files (lower (stem +:+ ext)) = Some f →
    encode_image_to_data_url f = Some url →
    scan_stems (present_of files) stems st = (Some url, Some ext).
Proof.
  induction stems as [|s rest IH]; intros st stem ext f url Hst Hfm Hf Hu.
  - discriminate.
  - rewrite first_match_cons in Hfm. cbn [scan_stems]. rewrite scan_exts_spec.
    destruct (head _) as [e|]; simpl.
    + injection Hfm as <- <-. rewrite Hf. simpl. rewrite Hu. simpl.
      by rewrite (encode_truthy _ _ Hu).
    + rewrite Hst. by eapply IH.
Qed.

Lemma scan_stems_unmatched (files : list file) (stems : list string) :
  ∀ st,
    url_truthy st.1 = false →
    first_match files stems = None →
    scan_stems (present_of files) stems st = st.
Proof.
  induction stems as [|s rest IH]; intros st Hst Hfm; [reflexivity|].
  rewrite first_match_cons in Hfm. cbn [scan_stems]. rewrite scan_exts_spec.
  destruct (head _) as [e|]; [discriminate|]. simpl.
  rewrite Hst. by apply IH.
Qed.

Lemma resolve_metric_unmatched (files : list file) (stems : list string) :
  first_match files stems = None →
  resolve_metric (present_of files) stems = (None, None).
Proof. intros. by apply scan_stems_unmatched. Qed.

(** Whatever happens, the found extension is an allowed one and a found
    reference is a non-empty string. *)
Lemma scan_exts_ext (present : list (string * file)) (stem : string)
    (exts : list string) (d : option string) (e : string) :
  scan_exts present stem exts = Some (d, e) → e ∈ exts.
Proof.
  induction exts as [|x exts IH]; simpl; [done|].
  destruct (dict_get _ _).
  - intros [= _ <-]. by left.
  - intros. right. by apply IH.
Qed.

Lemma scan_stems_ext (present : list (string * file)) (stems : list string) :
  ∀ st e,
    (∀ e, st.2 = Some e → e ∈ ALLOWED_EXTS) →
    (scan_stems present stems st).2 = Some e → e ∈ ALLOWED_EXTS.
Proof.
  induction stems as [|s rest IH]; intros st e Hst; cbn [scan_stems];
    [apply Hst|].
  destruct (scan_exts present s ALLOWED_EXTS) as [[d x]|] eqn:Hsc; simpl.
  - apply scan_exts_ext in Hsc.
    destruct (url_truthy d); simpl.
    + by intros [= <-].
    + apply IH. by intros ? [= <-].
  - destruct (url_truthy st.1); [apply Hst|by apply IH].
Qed.

Lemma resolve_metric_ext (present : list (string * file))
    (stems : list string) (e : string) :
  (resolve_metric present stems).2 = Some e → e ∈ ALLOWED_EXTS.
Proof. apply scan_stems_ext. by intros ? [=]. Qed.

(** ** Keys of the [images] dictionary *)

Lemma METRIC_ALIASES_nonempty (k : metric_key) : METRIC_ALIASES k ≠ [].
Proof.
  intros Hnil. apply (f_equal head) in Hnil.
  unfold METRIC_ALIASES in Hnil. rewrite expand_with_box_head in Hnil.
  by destruct k.
Qed.

Lemma first_stem_base (k : metric_key) :
  item0 (METRIC_ALIASES k) = item0 (BASE_METRIC_STEMS k).
Proof.
  unfold METRIC_ALIASES. by rewrite !item0_head, expand_with_box_head.
Qed.

(** From here on the alias lists are only used through the lemmas above
    and by evaluation. *)
Opaque METRIC_ALIASES.

Lemma canonical_in_keys (k : metric_key) :
  canonical_png_key k ∈ metric_keys_of k.
Proof. unfold metric_keys_of, canonical_png_key. simpl. by left. Qed.

Lemma secondary_in_keys (k : metric_key) (ext : string) :
  ext ∈ ALLOWED_EXTS → item0 (METRIC_ALIASES k) +:+ ext ∈ metric_keys_of k.
Proof. intros. by apply (list_elem_of_fmap_2 (λ e, _ +:+ e)). Qed.

Lemma metric_keys_of_base (k : metric_key) :
  metric_keys_of k
  = (λ ext, item0 (BASE_METRIC_STEMS k) +:+ ext) <$> ALLOWED_EXTS.
Proof. unfold metric_keys_of. by rewrite first_stem_base. Qed.

Lemma metric_keys_disjoint (k k' : metric_key) (key : string) :
  k ≠ k' → key ∈ metric_keys_of k → key ∉ metric_keys_of k'.
Proof.
  intros Hne Hin. rewrite metric_keys_of_base in *.
  revert key Hin. apply Forall_forall.
  destruct k, k'; try done;
    apply (bool_decide_unpack _); vm_compute; exact I.
Qed.

Lemma gallery_tag_not_metric (k : metric_key) (tag : string) :
  tag ∈ ["VAL_LABELS"; "VAL_PRED"] → tag ∉ metric_keys_of k.
Proof.
  rewrite metric_keys_of_base. revert tag. apply Forall_forall.
  destruct k; apply (bool_decide_unpack _); vm_compute; exact I.
Qed.

Lemma canonical_png_key_inj (k k' : metric_key) :
  canonical_png_key k = canonical_png_key k' → k = k'.
Proof.
  intros Heq. destruct (decide (k = k')) as [|Hne]; [done|].
  exfalso. eapply metric_keys_disjoint; [exact Hne|apply canonical_in_keys|].
  rewrite Heq. apply canonical_in_keys.
Qed.

Lemma allowed_ext_truthy (ext : string) :
  ext ∈ ALLOWED_EXTS → truthy ext = true.
Proof.
  unfold ALLOWED_EXTS. rewrite !elem_of_cons, elem_of_nil.
  intros H; repeat (destruct H as [->|H]); done.
Qed.

(** ** One metric, then all of them *)

Lemma metric_step_frame present images k key :
  key ∉ metric_keys_of k →
  metric_step present images k !! key = images !! key.
Proof.
  intros Hkey. unfold metric_step.
  destruct (resolve_metric present (METRIC_ALIASES k)) as [d fe] eqn:Hr.
  assert (key ≠ item0 (METRIC_ALIASES k) +:+ item0 ALLOWED_EXTS) as Hc.
  { intros ->. apply Hkey, canonical_in_keys. }
  destruct fe as [ext|]; [|by rewrite lookup_insert_ne].
  destruct (truthy ext && _); [|by rewrite lookup_insert_ne].
  rewrite !lookup_insert_ne; try done.
  intros <-. apply Hkey, secondary_in_keys.
  apply (resolve_metric_ext present (METRIC_ALIASES k)). by rewrite Hr.
Qed.

Lemma metric_step_canonical present images k :
  metric_step present images k !! canonical_png_key k
  = Some (value_of (resolve_metric present (METRIC_ALIASES k)).1).
Proof.
  unfold metric_step, canonical_png_key.
  destruct (resolve_metric present (METRIC_ALIASES k)) as [d fe].
  destruct fe as [ext|]; [|by rewrite lookup_insert_eq].
  destruct (truthy ext && _); [|by rewrite lookup_insert_eq].
  rewrite lookup_insert. destruct (decide _); [done|].
  by rewrite lookup_insert_eq.
Qed.

Lemma metric_step_secondary present images k ext :
  (resolve_metric present (METRIC_ALIASES k)).2 = Some ext →
  ext ≠ ".png" →
  metric_step present images k !! (item0 (METRIC_ALIASES k) +:+ ext)
  = Some (value_of (resolve_metric present (METRIC_ALIASES k)).1).
Proof.
  intros Hfe Hext. unfold metric_step.
  pose proof (resolve_metric_ext _ _ _ Hfe) as Hin.
  destruct (resolve_metric present (METRIC_ALIASES k)) as [d fe].
  simpl in Hfe. subst fe.
  rewrite (allowed_ext_truthy _ Hin). simpl.
  destruct (String.eqb_spec ext ".png"); [done|]. simpl.
  by rewrite lookup_insert_eq.
Qed.

Lemma foldl_metric_frame present (ks : list metric_key) key :
  ∀ images,
    (∀ k, k ∈ ks → key ∉ metric_keys_of k) →
    foldl (metric_step present) images ks !! key = images !! key.
Proof.
  induction ks as [|k ks IH]; intros images Hks; [reflexivity|].
  simpl. rewrite IH by (intros; apply Hks; by right).
  apply metric_step_frame, Hks. by left.
Qed.

Lemma metric_keys_NoDup : NoDup metric_keys.
Proof. apply (bool_decide_unpack _). vm_compute. exact I. Qed.

Lemma metric_keys_all (k : metric_key) : k ∈ metric_keys.
Proof. destruct k; unfold metric_keys; set_solver. Qed.

(** What a metric's own iteration stores under one of its keys is what the
    finished loop holds there. *)
Lemma resolve_metrics_own present k key v :
  key ∈ metric_keys_of k →
  (∀ images, metric_step present images k !! key = Some v) →
  resolve_metrics present !! key = Some v.
Proof.
  intros Hkey Hstep. unfold resolve_metrics.
  pose proof metric_keys_NoDup as Hnd.
  destruct (list_elem_of_split _ _ (metric_keys_all k)) as (l1 & l2 & Hsplit).
  rewrite Hsplit in Hnd |- *.
  apply NoDup_app in Hnd as (_ & _ & Hnd).
  apply NoDup_cons in Hnd as [Hk _].
  rewrite foldl_app. simpl. rewrite foldl_metric_frame; [apply Hstep|].
  intros k' Hk'. eapply metric_keys_disjoint; [|exact Hkey].
  intros ->. done.
Qed.

Lemma resolve_metrics_canonical present k :
  resolve_metrics present !! canonical_png_key k
  = Some (value_of (resolve_metric present (METRIC_ALIASES k)).1).
Proof.
  apply (resolve_metrics_own present k); [apply canonical_in_keys|].
  intros. apply metric_step_canonical.
Qed.

Lemma resolve_metrics_secondary present k ext :
  (resolve_metric present (METRIC_ALIASES k)).2 = Some ext →
  ext ≠ ".png" →
  resolve_metrics present !! (item0 (METRIC_ALIASES k) +:+ ext)
  = Some (value_of (resolve_metric present (METRIC_ALIASES k)).1).
Proof.
  intros Hfe Hext. apply (resolve_metrics_own present k).
  - apply secondary_in_keys. by eapply resolve_metric_ext.
  - intros. by apply metric_step_secondary.
Qed.

Lemma resolve_metrics_other present key :
  (∀ k, key ∉ metric_keys_of k) → resolve_metrics present !! key = None.
Proof.
  intros Hk. unfold resolve_metrics. rewrite foldl_metric_frame; [done|].
  intros. apply Hk.
Qed.

(** ** The fallback *)

Lemma cm_fallback_eq (images : gmap string value) :
  cm_fallback images
  = if is_none (py_get images (canonical_png_key CM_N))
       && negb (is_none (py_get images (canonical_png_key CM)))
    then <[canonical_png_key CM_N := py_get images (canonical_png_key CM)]>
           images
    else images.
Proof. reflexivity. Qed.

Lemma cm_fallback_frame (images : gmap string value) (key : string) :
  key ≠ canonical_png_key CM_N → cm_fallback images !! key = images !! key.
Proof.
  intros Hne. rewrite cm_fallback_eq. destruct (_ && _); [|reflexivity].
  apply lookup_insert_ne. congruence.
Qed.

Lemma cm_fallback_fires (images : gmap string value) :
  py_get images (canonical_png_key CM_N) = VNone →
  py_get images (canonical_png_key CM) ≠ VNone →
  py_get (cm_fallback images) (canonical_png_key CM_N)
  = py_get images (canonical_png_key CM).
Proof.
  intros Hn Hc. rewrite cm_fallback_eq, Hn.
  destruct (py_get images (canonical_png_key CM)) eqn:Hcm;
    [congruence|..]; cbn [is_none negb andb]; unfold py_get at 1;
    by rewrite lookup_insert_eq.
Qed.

Lemma cm_fallback_keeps (images : gmap string value) :
  py_get images (canonical_png_key CM_N) ≠ VNone →
  cm_fallback images = images.
Proof.
  intros Hn. rewrite cm_fallback_eq.
  destruct (py_get images (canonical_png_key CM_N)); [congruence|..];
    reflexivity.
Qed.

Lemma cm_fallback_unset (images : gmap string value) :
  py_get images (canonical_png_key CM) = VNone →
  cm_fallback images = images.
Proof.
  intros Hn. rewrite cm_fallback_eq, Hn. cbn [is_none negb].
  by rewrite andb_false_r.
Qed.

Lemma cm_fallback_idem (images : gmap string value) :
  cm_fallback (cm_fallback images) = cm_fallback images.
Proof.
  destruct (py_get images (canonical_png_key CM_N)) eqn:Hn.
  2-4: rewrite (cm_fallback_keeps images) by congruence;
    rewrite (cm_fallback_keeps images) by congruence; reflexivity.
  destruct (py_get images (canonical_png_key CM)) eqn:Hc.
  1: rewrite (cm_fallback_unset images) by done;
    by rewrite (cm_fallback_unset images).
  all: apply cm_fallback_keeps; rewrite cm_fallback_fires; congruence.
Qed.

(** ** Storing the galleries *)

Lemma store_gallery_frame tag items (images : gmap string value) key :
  key ≠ tag → store_gallery tag items images !! key = images !! key.
Proof.
  intros Hne. unfold store_gallery. destruct items; [done|].
  by rewrite lookup_insert_ne.
Qed.

Lemma config_images_metric_key (files : list file) k key :
  key ∈ metric_keys_of k →
  config_images files !! key
  = cm_fallback (resolve_metrics (present_of files)) !! key.
Proof.
  intros Hkey. unfold config_images.
  rewrite !store_gallery_frame; [reflexivity|..];
    intros ->; eapply gallery_tag_not_metric; try exact Hkey;
    rewrite !elem_of_cons; auto.
Qed.

(** ** Metric entries of the finished record *)

Lemma canonical_png_key_ne (k : metric_key) :
  k ≠ CM_N → canonical_png_key k ≠ canonical_png_key CM_N.
Proof. intros Hne Heq. apply Hne, canonical_png_key_inj, Heq. Qed.

Lemma config_images_resolved (files : list file) k url :
  (resolve_metric (present_of files) (METRIC_ALIASES k)).1 = Some url →
  config_images files !! canonical_png_key k = Some (VStr url).
Proof.
  intros Hr.
  rewrite (config_images_metric_key files k) by apply canonical_in_keys.
  pose proof (resolve_metrics_canonical (present_of files) k) as Hk.
  rewrite Hr in Hk. cbn [value_of] in Hk. clear Hr.
  destruct (decide (k = CM_N)) as [->|Hne].
  - rewrite cm_fallback_keeps; [exact Hk|]. unfold py_get. rewrite Hk.
    intros Hd; discriminate Hd.
  - rewrite cm_fallback_frame; [exact Hk|]. apply canonical_png_key_ne, Hne.
Qed.

Lemma config_images_not_cmn (files : list file) k :
  k ≠ CM_N →
  config_images files !! canonical_png_key k
  = Some (value_of (resolve_metric (present_of files) (METRIC_ALIASES k)).1).
Proof.
  intros Hne.
  rewrite (config_images_metric_key files k) by apply canonical_in_keys.
  rewrite cm_fallback_frame by apply canonical_png_key_ne, Hne.
  apply resolve_metrics_canonical.
Qed.

Lemma config_images_cmn_unresolved (files : list file) :
  (resolve_metric (present_of files) (METRIC_ALIASES CM_N)).1 = None →
  config_images files !! canonical_png_key CM_N
  = config_images files !! canonical_png_key CM.
Proof.
  intros Hr.
  rewrite (config_images_metric_key files CM_N) by apply canonical_in_keys.
  rewrite (config_images_metric_key files CM) by apply canonical_in_keys.
  rewrite (cm_fallback_frame _ (canonical_png_key CM))
    by (apply canonical_png_key_ne; congruence).
  pose proof (resolve_metrics_canonical (present_of files) CM_N) as Hn.
  pose proof (resolve_metrics_canonical (present_of files) CM) as Hc.
  rewrite Hr in Hn. cbn [value_of] in Hn. clear Hr.
  rewrite cm_fallback_eq. unfold py_get. rewrite Hn, Hc.
  cbn [from_option is_none andb]. unfold id at 1.
  destruct (resolve_metric (present_of files) (METRIC_ALIASES CM)).1;
    cbn [value_of is_none negb].
  - apply lookup_insert_eq.
  - exact Hn.
Qed.

Lemma value_of_cases (d : option string) :
  value_of d = VNone ∨ ∃ url, value_of d = VStr url.
Proof. destruct d; [right; eexists; reflexivity | left; reflexivity]. Qed.

Lemma config_images_canonical_shape (files : list file) k :
  ∃ v, config_images files !! canonical_png_key k = Some v
       ∧ (v = VNone ∨ ∃ url, v = VStr url).
Proof.
  assert (∀ k, k ≠ CM_N →
            ∃ v, config_images files !! canonical_png_key k = Some v
                 ∧ (v = VNone ∨ ∃ url, v = VStr url)) as Hother.
  { intros k' Hne. eexists. split; [apply config_images_not_cmn, Hne|].
    apply value_of_cases. }
  destruct (decide (k = CM_N)) as [->|Hne]; [|apply Hother, Hne].
  destruct (resolve_metric (present_of files) (METRIC_ALIASES CM_N)).1
    as [u|] eqn:Hr.
  - exists (VStr u). split; [apply config_images_resolved, Hr|].
    right; eexists; reflexivity.
  - rewrite config_images_cmn_unresolved by exact Hr.
    apply Hother. congruence.
Qed.

(** ** Galleries *)

Lemma gallery_step_spec (g : galleries) (item : string * file) :
  gallery_step g item
  = Galleries (val_labels g ++ gallery_of Labeled [item])
              (val_preds g ++ gallery_of Predicted [item])
              (all_imgs g ++ gallery_of Generic [item]).
Proof.
  destruct g as [ls ps gs], item as [name f].
  unfold gallery_step, gallery_of, classify_name. simpl.
  destruct (is_image name); simpl; [|by rewrite !app_nil_r].
  destruct (encode_image_to_data_url f) as [u|] eqn:Hu; simpl;
    [|by rewrite !app_nil_r].
  rewrite (encode_truthy _ _ Hu). simpl.
  destruct (startswith (lower name) "val_batch" && contains "_labels" _);
    [by rewrite !app_nil_r|].
  destruct (startswith (lower name) "val_batch" && contains "_pred" _);
    by rewrite !app_nil_r.
Qed.

Lemma gallery_of_app kind (l1 l2 : list (string * file)) :
  gallery_of kind (l1 ++ l2) = gallery_of kind l1 ++ gallery_of kind l2.
Proof. apply omap_app. Qed.

Lemma foldl_gallery_step (present : list (string * file)) :
  ∀ g,
    foldl gallery_step g present
    = Galleries (val_labels g ++ gallery_of Labeled present)
                (val_preds g ++ gallery_of Predicted present)
                (all_imgs g ++ gallery_of Generic present).
Proof.
  induction present as [|item present IH]; intros g.
  - destruct g. simpl. by rewrite !app_nil_r.
  - cbn [foldl]. rewrite IH, gallery_step_spec. cbn [val_labels val_preds all_imgs].
    change (item :: present) with ([item] ++ present).
    by rewrite !gallery_of_app, !app_assoc.
Qed.

(** The classifier builds each gallery in encounter order. *)
Lemma classify_spec (present : list (string * file)) :
  classify present
  = Galleries (gallery_of Labeled present) (gallery_of Predicted present)
              (gallery_of Generic present).
Proof. unfold classify. by rewrite foldl_gallery_step. Qed.

Lemma batch_key_inj : Inj (=) (=) batch_key.
Proof.
  intros i j Heq. unfold batch_key in Heq.
  apply String.app_inj, pretty_nat_inj in Heq. lia.
Qed.

Lemma batch_map_keys (urls : list string) :
  (imap (λ i u, (batch_key i, [u])) urls).*1
  = batch_key <$> seq 0 (length urls).
Proof.
  rewrite fmap_imap. unfold compose. simpl. apply imap_seq_0.
Qed.

Lemma batch_keys_NoDup (urls : list string) :
  NoDup (imap (λ i u, (batch_key i, [u])) urls).*1.
Proof.
  rewrite batch_map_keys. apply NoDup_fmap_2; [apply batch_key_inj|].
  apply NoDup_seq.
Qed.

Lemma batch_map_lookup (urls : list string) (i : nat) (u : string) :
  urls !! i = Some u → batch_map urls !! batch_key i = Some [u].
Proof.
  intros Hi. unfold batch_map. apply elem_of_list_to_map_1.
  - apply batch_keys_NoDup.
  - apply (elem_of_lookup_imap_2 (λ i u, (batch_key i, [u]))), Hi.
Qed.

Lemma batch_map_lookup_None (urls : list string) :
  batch_map urls !! batch_key (length urls) = None.
Proof.
  unfold batch_map. apply not_elem_of_list_to_map_1.
  fold (batch_key). rewrite batch_map_keys, list_elem_of_fmap.
  intros (j & Heq & Hj). apply batch_key_inj in Heq. subst j.
  apply elem_of_seq in Hj. lia.
Qed.

Lemma batch_map_size (urls : list string) :
  size (batch_map urls) = length urls.
Proof.
  unfold batch_map. rewrite map_size_list_to_map by apply batch_keys_NoDup.
  by rewrite length_imap.
Qed.

Lemma batch_map_snoc (urls : list string) (u : string) :
  batch_map (urls ++ [u]) = <[batch_key (length urls) := [u]]> (batch_map urls).
Proof.
  unfold batch_map. fold batch_key. rewrite imap_app. simpl.
  rewrite Nat.add_0_r. apply list_to_map_snoc.
  rewrite batch_map_keys, list_elem_of_fmap.
  intros (j & Heq & Hj). apply batch_key_inj in Heq. subst j.
  apply elem_of_seq in Hj. lia.
Qed.

(** The regrouping loop yields one single-image category per item. *)
Lemma regroup_spec (items : list string) : regroup items = batch_map items.
Proof.
  induction items as [|u items IH] using rev_ind; [reflexivity|].
  unfold regroup in *. rewrite foldl_snoc, IH, batch_map_size.
  fold (batch_key (length items)). unfold setdefault_append.
  by rewrite batch_map_lookup_None, batch_map_snoc.
Qed.

(** ** Directories without image files *)

Lemma append_cons (c : ascii) (a e : string) :
  String c a +:+ e = String c (a +:+ e).
Proof. reflexivity. Qed.

Lemma endswith_refl (e : string) : endswith e e = true.
Proof. destruct e; cbn [endswith]; by rewrite String.eqb_refl. Qed.

Lemma endswith_app (a e : string) : endswith (a +:+ e) e = true.
Proof.
  induction a as [|c a IH]; [apply endswith_refl|].
  rewrite append_cons. cbn [endswith].
  destruct (String.eqb _ e); [reflexivity|apply IH].
Qed.

Lemma allowed_ext_lower (ext : string) :
  ext ∈ ALLOWED_EXTS → lower ext = ext.
Proof.
  unfold ALLOWED_EXTS. rewrite !elem_of_cons, elem_of_nil.
  intros H; repeat (destruct H as [->|H]); try reflexivity. destruct H.
Qed.

Lemma is_image_candidate (stem ext : string) :
  ext ∈ ALLOWED_EXTS → is_image (lower (stem +:+ ext)) = true.
Proof.
  intros Hext. unfold is_image. apply existsb_exists. exists ext. split.
  - by apply list_elem_of_In.
  - rewrite lower_app, (allowed_ext_lower _ Hext). apply endswith_app.
Qed.

Lemma filter_none {A} (P : A → Prop) `{∀ x, Decision (P x)} (l : list A) :
  (∀ x, x ∈ l → ¬ P x) → filter P l = [].
Proof.
  induction l as [|x l IH]; intros Hl; [reflexivity|].
  rewrite filter_cons, decide_False by (apply Hl; left).
  apply IH. intros y Hy. apply Hl. by right.
Qed.

Lemma omap_none {A B} (g : A → option B) (l : list A) :
  (∀ x, x ∈ l → g x = None) → omap g l = [].
Proof.
  induction l as [|x l IH]; intros Hl; [reflexivity|].
  cbn [omap list_omap]. rewrite (Hl x) by left.
  apply IH. intros y Hy. apply Hl. by right.
Qed.

Lemma no_images_unmatched (files : list file) (stems : list string) :
  no_images files → first_match files stems = None.
Proof.
  intros Hno. induction stems as [|s rest IH]; [reflexivity|].
  rewrite first_match_cons, filter_none; [exact IH|].
  intros ext Hext (f & Heq & Hf)%list_elem_of_fmap.
  specialize (Hno f Hf). rewrite <- Heq, is_image_candidate in Hno by exact Hext.
  discriminate Hno.
Qed.

Lemma dict_set_elem {V} (k k' : string) (v v' : V) (d : list (string * V)) :
  (k', v') ∈ dict_set k v d → (k', v') = (k, v) ∨ (k', v') ∈ d.
Proof.
  induction d as [|[k0 v0] d IH]; cbn [dict_set].
  - rewrite list_elem_of_singleton. by left.
  - destruct (String.eqb k k0).
    + rewrite !elem_of_cons. intros [?|?]; [by left|by right; right].
    + rewrite !elem_of_cons. intros [?|Hin]; [by right; left|].
      destruct (IH Hin); [by left|by right; right].
Qed.

Lemma present_of_elem (files : list file) (name : string) (f : file) :
  (name, f) ∈ present_of files → f ∈ files ∧ name = lower (file_name f).
Proof.
  induction files as [|g files IH] using rev_ind.
  - intros []%elem_of_nil.
  - rewrite present_of_snoc. intros [Heq|Hin]%dict_set_elem.
    + injection Heq as -> ->. split; [|reflexivity].
      apply elem_of_app. right. by left.
    + destruct (IH Hin) as [? ?]. split; [|assumption].
      apply elem_of_app. by left.
Qed.

Lemma no_images_gallery (files : list file) (kind : gallery_kind) :
  no_images files → gallery_of kind (present_of files) = [].
Proof.
  intros Hno. apply omap_none. intros [name f] Hin.
  apply present_of_elem in Hin as [Hf ->]. cbn [fst snd].
  by rewrite (Hno f Hf).
Qed.

Lemma metric_step_unresolved present images k :
  resolve_metric present (METRIC_ALIASES k) = (None, None) →
  metric_step present images k = <[canonical_png_key k := VNone]> images.
Proof. intros Hr. unfold metric_step. rewrite Hr. reflexivity. Qed.

Lemma foldl_metric_unresolved present (ks : list metric_key) :
  (∀ k, resolve_metric present (METRIC_ALIASES k) = (None, None)) →
  ∀ images,
    foldl (metric_step present) images ks
    = foldl (λ im k, <[canonical_png_key k := VNone]> im) images ks.
Proof.
  intros Hr. induction ks as [|k ks IH]; intros images; [reflexivity|].
  cbn [foldl]. rewrite metric_step_unresolved by apply Hr. apply IH.
Qed.

Lemma absent_record_fold :
  foldl (λ im k, <[canonical_png_key k := VNone]> im) ∅ metric_keys
  = absent_record.
Proof. apply (bool_decide_unpack _). vm_compute. exact I. Qed.

Lemma absent_record_cm :
  py_get absent_record (canonical_png_key CM) = VNone.
Proof. vm_compute. reflexivity. Qed.

Lemma store_gallery_nil tag (images : gmap string value) :
  store_gallery tag [] images = images.
Proof. reflexivity. Qed.

Lemma no_images_record (files : list file) :
  no_images files → config_images files = absent_record.
Proof.
  intros Hno. unfold config_images. cbv zeta.
  rewrite classify_spec. cbn [val_labels val_preds].
  rewrite !no_images_gallery, !store_gallery_nil by exact Hno.
  unfold resolve_metrics. rewrite foldl_metric_unresolved.
  - rewrite absent_record_fold. apply cm_fallback_unset, absent_record_cm.
  - intros k. apply resolve_metric_unmatched, no_images_unmatched, Hno.
Qed.

(** ** Gallery entries of the finished record *)

Lemma batch_map_nonempty (u : string) (us : list string) :
  batch_map (u :: us) ≠ ∅.
Proof.
  intros He. apply (f_equal size) in He.
  rewrite batch_map_size, map_size_empty in He. discriminate He.
Qed.

Lemma store_gallery_lookup tag items (images : gmap string value) :
  store_gallery tag items images !! tag
  = match items with
    | [] => images !! tag
    | _ :: _ => Some (VDict (batch_map items))
    end.
Proof.
  destruct items as [|u us]; [reflexivity|].
  unfold store_gallery. rewrite lookup_insert_eq, regroup_spec.
  destruct (decide _) as [He|_]; [|reflexivity].
  destruct (batch_map_nonempty _ _ He).
Qed.

Lemma gallery_tag_unset (files : list file) (tag : string) :
  tag ∈ ["VAL_LABELS"; "VAL_PRED"] →
  cm_fallback (resolve_metrics (present_of files)) !! tag = None.
Proof.
  intros Htag. rewrite cm_fallback_frame.
  - apply resolve_metrics_other. intros k.
    apply gallery_tag_not_metric, Htag.
  - intros ->. eapply gallery_tag_not_metric; [exact Htag|].
    apply canonical_in_keys.
Qed.

Lemma config_images_val_labels (files : list file) :
  config_images files !! "VAL_LABELS"
  = match gallery_of Labeled (present_of files) with
    | [] => None
    | urls => Some (VDict (batch_map urls))
    end.
Proof.
  unfold config_images. cbv zeta. rewrite classify_spec.
  cbn [val_labels val_preds].
  rewrite store_gallery_frame by (intros H; discriminate H).
  rewrite store_gallery_lookup, gallery_tag_unset.
  - destruct (gallery_of Labeled _); reflexivity.
  - rewrite !elem_of_cons. by left.
Qed.

Lemma config_images_val_pred (files : list file) :
  config_images files !! "VAL_PRED"
  = match gallery_of Predicted (present_of files) with
    | [] => None
    | urls => Some (VDict (batch_map urls))
    end.
Proof.
  unfold config_images. cbv zeta. rewrite classify_spec.
  cbn [val_labels val_preds].
  rewrite store_gallery_lookup.
  rewrite store_gallery_frame by (intros H; discriminate H).
  rewrite gallery_tag_unset.
  - destruct (gallery_of Predicted _); reflexivity.
  - rewrite !elem_of_cons. right. by left.
Qed.

Lemma gallery_of_elem kind present name f u :
  (name, f) ∈ present →
  is_image name = true →
  classify_name (lower name) = kind →
  encode_image_to_data_url f = Some u →
  u ∈ gallery_of kind present.
Proof.
  intros Hin Himg Hkind Hu. unfold gallery_of.
  apply list_elem_of_omap. exists (name, f). split; [exact Hin|].
  cbn [fst snd]. rewrite Himg, Hu. by rewrite decide_True.
Qed.

(** Every key of the finished record is a metric key or a gallery tag. *)
Lemma config_images_keys (files : list file) (key : string) :
  is_Some (config_images files !! key) →
  key ∈ ["VAL_LABELS"; "VAL_PRED"] ∨ ∃ k, key ∈ metric_keys_of k.
Proof.
  intros Hsome.
  destruct (decide (key ∈ ["VAL_LABELS"; "VAL_PRED"])) as [|Htag];
    [by left|right].
  destruct (decide (Exists (λ k, key ∈ metric_keys_of k) metric_keys))
    as [Hex|Hno].
  { apply Exists_exists in Hex as (k & _ & Hk). by exists k. }
  exfalso. revert Hsome. unfold config_images. cbv zeta.
  rewrite !store_gallery_frame.
  2,3: intros ->; apply Htag; rewrite !elem_of_cons; auto.
  assert (∀ k, key ∉ metric_keys_of k) as Hk.
  { intros k Hin. apply Hno, Exists_exists. exists k.
    split; [apply metric_keys_all|exact Hin]. }
  rewrite cm_fallback_frame, resolve_metrics_other by
    (try exact Hk; intros ->; apply (Hk CM_N), canonical_in_keys).
  intros [? [=]].
Qed.

(** ** Metric resolution against the first present candidate *)

Lemma resolve_metric_first_match (files : list file) (stems : list string)
    (stem ext : string) (f : file) (url : string) :
  first_match files stems = Some (stem, ext) →
  file_named files (lower (stem +:+ ext)) = Some f →
  encode_image_to_data_url f = Some url →
  resolve_metric (present_of files) stems = (Some url, Some ext).
Proof. intros. by eapply scan_stems_first_match. Qed.

Lemma first_match_ext (files : list file) (stems : list string)
    (stem ext : string) :
  first_match files stems = Some (stem, ext) →
  stem ∈ stems ∧ ext ∈ ALLOWED_EXTS ∧ name_present files (stem +:+ ext).
Proof.
  unfold first_match. intros Hh.
  assert ((stem, ext) ∈ filter (λ c, name_present files (c.1 +:+ c.2))
                          (candidates stems)) as Hin.
  { destruct (filter _ _) as [|c l]; [discriminate Hh|].
    injection Hh as ->. left. }
  apply list_elem_of_filter in Hin as [Hp Hin]. unfold candidates in Hin.
  apply list_elem_of_bind in Hin as (s & Hin & Hs).
  apply list_elem_of_bind in Hin as (e & Hin & He).
  apply list_elem_of_singleton in Hin. injection Hin as -> ->. auto.
Qed.

Lemma dir_precision_resolved (b1 b2 : string) (files : list file) :
  files = dir_precision b1 b2 ∨ files = reverse (dir_precision b1 b2) →
  resolve_metric (present_of files) (METRIC_ALIASES P)
  = (Some (png_url b1), Some ".png").
Proof.
  intros [-> | ->];
    apply (resolve_metric_first_match _ _ "boxp_curve" ".png"
             (File "boxP_curve.PNG" (Some b1)));
    vm_compute; reflexivity.
Qed.

(** C1: metric resolution is first-match-wins, stem-major and
    extension-minor, up to case.  When [(stem, ext)] is the first candidate of
    [candidates stems] that names a file of the directory and that file can
    be read, the resolver returns exactly that file's reference and that
    extension; no earlier candidate names a file; and the record stores the
    reference under the metric's canonical key.  In particular, in a
    directory holding [boxP_curve.PNG] and [precision.png], in either
    enumeration order, [P] resolves to [boxP_curve.PNG], and [boxp_curve]
    does stand before [precision] in the expanded list of [P]. *)
Theorem first_match_wins (files : list file) (stems : list string)
    (stem ext : string) (f : file) (url : string) :
  first_match files stems = Some (stem, ext) →
  file_named files (lower (stem +:+ ext)) = Some f →
  encode_image_to_data_url f = Some url →
  resolve_metric (present_of files) stems = (Some url, Some ext)
  ∧ (f ∈ files ∧ lower (file_name f) = lower (stem +:+ ext))
  ∧ (stem ∈ stems ∧ ext ∈ ALLOWED_EXTS)
  ∧ (∃ before after,
       candidates stems = before ++ (stem, ext) :: after
       ∧ Forall (λ c, ¬ name_present files (c.1 +:+ c.2)) before)
  ∧ (∀ k, stems = METRIC_ALIASES k →
          config_images files !! canonical_png_key k = Some (VStr url))
  ∧ (∀ b1 b2 dir,
       dir = dir_precision b1 b2 ∨ dir = reverse (dir_precision b1 b2) →
       config_images dir !! canonical_png_key P = Some (VStr (png_url b1)))
  ∧ (∃ i j, METRIC_ALIASES P !! i = Some "boxp_curve"
            ∧ METRIC_ALIASES P !! j = Some "precision" ∧ i < j).
Proof.
  intros Hfm Hf Hu.
  pose proof (resolve_metric_first_match _ _ _ _ _ _ Hfm Hf Hu) as Hr.
  split; [exact Hr|].
  split; [exact (file_named_Some _ _ _ Hf)|].
  split; [destruct (first_match_ext _ _ _ _ Hfm) as (? & ? & _); by split|].
  split; [exact (head_filter_Some _ _ _ Hfm)|].
  split.
  { intros k ->. apply config_images_resolved. rewrite Hr. reflexivity. }
  split.
  { intros b1 b2 dir Hdir. apply config_images_resolved.
    rewrite (dir_precision_resolved b1 b2 dir Hdir). reflexivity. }
  exists 1, 16. split; [|split; [|lia]]; vm_compute; reflexivity.
Qed.

Lemma first_match_wins_witness :
  resolve_metric (present_of (dir_precision "abc" "xyz")) (METRIC_ALIASES P)
  = (Some "data:image/png;base64,YWJj", Some ".png")
  ∧ config_images (dir_precision "abc" "xyz") !! canonical_png_key P
    = Some (VStr "data:image/png;base64,YWJj").
Proof.
  destruct (first_match_wins (dir_precision "abc" "xyz") (METRIC_ALIASES P)
              "boxp_curve" ".png" (File "boxP_curve.PNG" (Some "abc"))
              "data:image/png;base64,YWJj")
    as (H1 & _ & _ & _ & H5 & _).
  - vm_compute. reflexivity.
  - vm_compute. reflexivity.
  - vm_compute. reflexivity.
  - split; [exact H1|]. apply H5. reflexivity.
Defined.

(** C8: whenever a metric resolves to a reference through a file whose
    extension is not the primary one, the record holds that reference both
    under first-expanded-stem + matched-extension and under the canonical
    key, so both spellings give the same value. *)
Theorem secondary_key_stored (files : list file) (k : metric_key)
    (ext url : string) :
  resolve_metric (present_of files) (METRIC_ALIASES k) = (Some url, Some ext) →
  ext ≠ item0 ALLOWED_EXTS →
  config_images files !! (item0 (METRIC_ALIASES k) +:+ ext) = Some (VStr url)
  ∧ config_images files !! canonical_png_key k = Some (VStr url)
  ∧ config_images files !! (item0 (METRIC_ALIASES k) +:+ ext)
    = config_images files !! canonical_png_key k.
Proof.
  intros Hr Hext.
  assert (config_images files !! canonical_png_key k = Some (VStr url)) as Hc.
  { apply config_images_resolved. rewrite Hr. reflexivity. }
  assert (ext ∈ ALLOWED_EXTS) as Hin.
  { apply (resolve_metric_ext (present_of files) (METRIC_ALIASES k)).
    rewrite Hr. reflexivity. }
  assert (config_images files !! (item0 (METRIC_ALIASES k) +:+ ext)
          = Some (VStr url)) as Hs.
  { rewrite (config_images_metric_key files k)
      by (apply secondary_in_keys, Hin).
    rewrite cm_fallback_frame.
    - rewrite (resolve_metrics_secondary _ k ext).
      + rewrite Hr. reflexivity.
      + rewrite Hr. reflexivity.
      + exact Hext.
    - destruct (decide (k = CM_N)) as [->|Hk].
      + unfold canonical_png_key. intros Heq.
        apply (inj (String.app _)) in Heq. exact (Hext Heq).
      + intros Heq.
        apply (metric_keys_disjoint k CM_N _ Hk (secondary_in_keys k ext Hin)).
        rewrite Heq. apply canonical_in_keys. }
  split; [exact Hs|]. split; [exact Hc|]. by rewrite Hs, Hc.
Qed.

Lemma secondary_key_stored_witness :
  config_images dir_pr_jpg !! "pr_curve.jpg"
  = Some (VStr "data:image/jpeg;base64,YWJj")
  ∧ config_images dir_pr_jpg !! "pr_curve.png"
    = Some (VStr "data:image/jpeg;base64,YWJj").
Proof.
  destruct (secondary_key_stored dir_pr_jpg PR ".jpg"
              "data:image/jpeg;base64,YWJj") as (H1 & H2 & _).
  - vm_compute. reflexivity.
  - vm_compute. intros H. discriminate H.
  - split; [exact H1|exact H2].
Defined.

(** ** The fallback from the raw to the normalised confusion matrix *)

Lemma dir_cm_unmatched (bytes : option string) :
  first_match (dir_cm bytes) (METRIC_ALIASES CM_N) = None.
Proof. vm_compute. reflexivity. Qed.

Lemma dir_cm_resolved (b : string) :
  resolve_metric (present_of (dir_cm (Some b))) (METRIC_ALIASES CM)
  = (Some (png_url b), Some ".png").
Proof.
  apply (resolve_metric_first_match _ _ "confusion_matrix" ".png"
           (File "confusion_matrix.png" (Some b)));
    vm_compute; reflexivity.
Qed.

Lemma py_get_lookup (m1 m2 : gmap string value) (k1 k2 : string) :
  m1 !! k1 = m2 !! k2 → py_get m1 k1 = py_get m2 k2.
Proof. unfold py_get. by intros ->. Qed.

(** C3: the fallback from CM to CM_N.  After the six metrics are resolved,
    if the canonical key of CM_N holds the absent marker and that of CM holds
    a reference, the record's CM_N entry is CM's reference; a CM_N entry that
    is not absent is kept; no other metric key is touched; running the
    fallback a second time changes nothing; and for a directory holding only
    [confusion_matrix.png] the CM_N entry equals the CM entry, which is that
    file's reference when it can be read. *)
Theorem cm_fallback_spec (files : list file) :
  let resolved := resolve_metrics (present_of files) in
  let record := config_images files in
  let cm := canonical_png_key CM in
  let cmn := canonical_png_key CM_N in
  (py_get resolved cmn = VNone → py_get resolved cm ≠ VNone →
   py_get record cmn = py_get resolved cm
   ∧ py_get record cm = py_get resolved cm)
  ∧ (py_get resolved cmn ≠ VNone → record !! cmn = resolved !! cmn)
  ∧ (∀ k key, key ∈ metric_keys_of k → key ≠ cmn →
       record !! key = resolved !! key)
  ∧ cm_fallback (cm_fallback resolved) = cm_fallback resolved
  ∧ (∀ bytes, files = dir_cm bytes →
       record !! cmn = record !! cm
       ∧ ∀ b, bytes = Some b → record !! cmn = Some (VStr (png_url b))).
Proof.
  intros resolved record cm cmn.
  assert (∀ k key, key ∈ metric_keys_of k →
            record !! key = cm_fallback resolved !! key) as Hrec.
  { intros k key Hkey. exact (config_images_metric_key files k key Hkey). }
  assert (cm ≠ cmn) as Hne.
  { apply canonical_png_key_ne. intros Hd; discriminate Hd. }
  split; [|split; [|split; [|split]]].
  - intros Hcmn Hcm. split.
    + etrans; [|exact (cm_fallback_fires resolved Hcmn Hcm)].
      apply py_get_lookup, (Hrec CM_N), canonical_in_keys.
    + apply py_get_lookup. rewrite (Hrec CM) by apply canonical_in_keys.
      apply cm_fallback_frame, Hne.
  - intros Hcmn. rewrite (Hrec CM_N) by apply canonical_in_keys.
    by rewrite (cm_fallback_keeps resolved Hcmn).
  - intros k key Hkey Hk. rewrite (Hrec k key Hkey).
    apply cm_fallback_frame, Hk.
  - apply cm_fallback_idem.
  - intros bytes ->.
    assert (config_images (dir_cm bytes) !! canonical_png_key CM_N
            = config_images (dir_cm bytes) !! canonical_png_key CM) as Heq.
    { apply config_images_cmn_unresolved.
      rewrite (resolve_metric_unmatched _ _ (dir_cm_unmatched bytes)).
      reflexivity. }
    split; [exact Heq|]. intros b ->. unfold record, cmn. rewrite Heq.
    apply config_images_resolved. rewrite dir_cm_resolved. reflexivity.
Qed.

Lemma cm_fallback_spec_witness :
  py_get (config_images (dir_cm (Some "abc"))) (canonical_png_key CM_N)
  = VStr "data:image/png;base64,YWJj".
Proof.
  destruct (cm_fallback_spec (dir_cm (Some "abc"))) as (H1 & _).
  destruct H1 as [H1 _].
  - vm_compute. reflexivity.
  - vm_compute. intros H. discriminate H.
  - rewrite H1. vm_compute. reflexivity.
Defined.

(** ** Entries of the canonical keys *)

Lemma dir_cm_cmn_entry :
  config_images (dir_cm (Some "abc")) !! canonical_png_key CM_N
  = Some (VStr "data:image/png;base64,YWJj").
Proof. vm_compute. reflexivity. Qed.

Lemma unmatched_absent (files : list file) (k : metric_key) :
  k ≠ CM_N →
  first_match files (METRIC_ALIASES k) = None →
  config_images files !! canonical_png_key k = Some VNone.
Proof.
  intros Hk Hfm. rewrite (config_images_not_cmn files k Hk).
  rewrite (resolve_metric_unmatched _ _ Hfm). reflexivity.
Qed.

Lemma unmatched_cmn (files : list file) :
  first_match files (METRIC_ALIASES CM_N) = None →
  config_images files !! canonical_png_key CM_N
  = config_images files !! canonical_png_key CM.
Proof.
  intros Hfm. apply config_images_cmn_unresolved.
  rewrite (resolve_metric_unmatched _ _ Hfm). reflexivity.
Qed.

Lemma no_images_absent (files : list file) (k : metric_key) :
  no_images files →
  config_images files !! canonical_png_key k = Some VNone.
Proof.
  intros Hno.
  assert (∀ k', first_match files (METRIC_ALIASES k') = None) as Hfm.
  { intros k'. apply no_images_unmatched, Hno. }
  destruct (decide (k = CM_N)) as [->|Hk].
  - rewrite (unmatched_cmn files (Hfm CM_N)).
    apply unmatched_absent; [intros Hd; discriminate Hd|apply Hfm].
  - apply unmatched_absent; [exact Hk|apply Hfm].
Qed.

Lemma no_images_no_gallery (files : list file) :
  no_images files →
  config_images files !! "VAL_LABELS" = None
  ∧ config_images files !! "VAL_PRED" = None.
Proof.
  intros Hno. rewrite config_images_val_labels, config_images_val_pred.
  by rewrite !no_images_gallery.
Qed.

(** C4, as stated, fails: with only [confusion_matrix.png] in the directory
    no candidate of CM_N names a file, yet the canonical key of CM_N holds a
    reference. *)
Lemma unmatched_is_absent_counterexample :
  ¬ (∀ files k,
       first_match files (METRIC_ALIASES k) = None →
       config_images files !! canonical_png_key k = Some VNone).
Proof.
  intros H.
  pose proof (H (dir_cm (Some "abc")) CM_N (dir_cm_unmatched _)) as Hc.
  pose proof dir_cm_cmn_entry as He.
  assert (Some (VStr "data:image/png;base64,YWJj") = Some VNone) as Habs.
  { rewrite <- He. exact Hc. }
  discriminate Habs.
Qed.

(** C4, amended: every canonical key has exactly one entry in the record,
    the absent marker or a reference, and the six canonical keys are
    distinct.  The entry is the reference of the first candidate that names
    a file when that file can be read; it is the absent marker when no
    candidate names a file and the metric is not CM_N; for CM_N with no
    candidate naming a file it is whatever CM's canonical key holds.  A
    directory without image files yields the record that maps the six
    canonical keys to the absent marker and has no gallery key. *)
Theorem canonical_entries (files : list file) :
  (∀ k, ∃ v, config_images files !! canonical_png_key k = Some v
             ∧ (v = VNone ∨ ∃ url, v = VStr url))
  ∧ (∀ k k', canonical_png_key k = canonical_png_key k' → k = k')
  ∧ (∀ k stem ext f url,
       first_match files (METRIC_ALIASES k) = Some (stem, ext) →
       file_named files (lower (stem +:+ ext)) = Some f →
       encode_image_to_data_url f = Some url →
       config_images files !! canonical_png_key k = Some (VStr url))
  ∧ (∀ k, k ≠ CM_N →
       first_match files (METRIC_ALIASES k) = None →
       config_images files !! canonical_png_key k = Some VNone)
  ∧ (first_match files (METRIC_ALIASES CM_N) = None →
     config_images files !! canonical_png_key CM_N
     = config_images files !! canonical_png_key CM)
  ∧ (no_images files →
     config_images files = absent_record
     ∧ (∀ k, config_images files !! canonical_png_key k = Some VNone)
     ∧ config_images files !! "VAL_LABELS" = None
     ∧ config_images files !! "VAL_PRED" = None).
Proof.
  split; [exact (config_images_canonical_shape files)|].
  split; [exact canonical_png_key_inj|].
  split.
  { intros k stem ext f url Hfm Hf Hu. apply config_images_resolved.
    rewrite (resolve_metric_first_match _ _ _ _ _ _ Hfm Hf Hu). reflexivity. }
  split; [exact (unmatched_absent files)|].
  split; [exact (unmatched_cmn files)|].
  intros Hno. split; [exact (no_images_record files Hno)|].
  split; [intros k; exact (no_images_absent files k Hno)|].
  exact (no_images_no_gallery files Hno).
Qed.

Lemma canonical_entries_witness :
  config_images [File "results.csv" (Some "a,b")] = absent_record
  ∧ config_images (dir_precision "abc" "xyz") !! canonical_png_key R
    = Some VNone.
Proof.
  split.
  - destruct (canonical_entries [File "results.csv" (Some "a,b")])
      as (_ & _ & _ & _ & _ & H6).
    apply H6. intros f Hf. apply list_elem_of_singleton in Hf as ->.
    vm_compute. reflexivity.
  - destruct (canonical_entries (dir_precision "abc" "xyz"))
      as (_ & _ & _ & H4 & _).
    apply H4; [intros H; discriminate H|vm_compute; reflexivity].
Defined.

(** ** Galleries *)

Lemma batch_map_singletons (urls : list string) (key : string)
    (us : list string) :
  batch_map urls !! key = Some us →
  ∃ i u, key = batch_key i ∧ urls !! i = Some u ∧ us = [u].
Proof.
  intros Hl. apply elem_of_list_to_map_2 in Hl.
  apply elem_of_lookup_imap_1 in Hl as (i & u & Heq & Hu).
  injection Heq as -> ->. by exists i, u.
Qed.

Lemma classify_name_labeled (lower_name : string) :
  startswith lower_name "val_batch" = true →
  contains "_labels" lower_name = true →
  classify_name lower_name = Labeled.
Proof. intros H1 H2. unfold classify_name. by rewrite H1, H2. Qed.

Lemma classify_name_predicted (lower_name : string) :
  startswith lower_name "val_batch" = true →
  contains "_labels" lower_name = false →
  contains "_pred" lower_name = true →
  classify_name lower_name = Predicted.
Proof. intros H1 H2 H3. unfold classify_name. by rewrite H1, H2, H3. Qed.

(** C5: gallery classification.  A readable image file whose lower-cased
    name starts with [val_batch] and contains [_labels] goes to the labeled
    gallery (this rule is tried first); one that starts with [val_batch],
    does not contain [_labels] and contains [_pred] goes to the predicted
    gallery.  A non-empty labeled or predicted gallery is stored under its
    tag as a mapping with keys [batch_1], [batch_2], ... in encounter order:
    as many keys as references, the i-th key holding exactly the i-th
    reference, every key holding one reference. *)
Theorem gallery_classification (files : list file) :
  let present := present_of files in
  let g := classify present in
  (∀ name f u,
     (name, f) ∈ present → is_image name = true →
     startswith (lower name) "val_batch" = true →
     contains "_labels" (lower name) = true →
     encode_image_to_data_url f = Some u →
     u ∈ val_labels g)
  ∧ (∀ name f u,
       (name, f) ∈ present → is_image name = true →
       startswith (lower name) "val_batch" = true →
       contains "_labels" (lower name) = false →
       contains "_pred" (lower name) = true →
       encode_image_to_data_url f = Some u →
       u ∈ val_preds g)
  ∧ val_labels g = gallery_of Labeled present
  ∧ val_preds g = gallery_of Predicted present
  ∧ config_images files !! "VAL_LABELS"
    = match val_labels g with
      | [] => None
      | urls => Some (VDict (batch_map urls))
      end
  ∧ config_images files !! "VAL_PRED"
    = match val_preds g with
      | [] => None
      | urls => Some (VDict (batch_map urls))
      end
  ∧ (∀ urls,
       size (batch_map urls) = length urls
       ∧ (∀ i u, urls !! i = Some u →
                 batch_map urls !! ("batch_" +:+ pretty (i + 1)) = Some [u])
       ∧ (∀ key us, batch_map urls !! key = Some us →
            ∃ i u, key = "batch_" +:+ pretty (i + 1)
                   ∧ urls !! i = Some u ∧ us = [u])
       ∧ (∀ i j, "batch_" +:+ pretty (i + 1) = "batch_" +:+ pretty (j + 1) →
                 i = j)).
Proof.
  intros present g. unfold g. rewrite classify_spec.
  cbn [val_labels val_preds].
  split.
  { intros name f u Hin Himg Hs Hl Hu.
    apply (gallery_of_elem Labeled present name f u Hin Himg); [|exact Hu].
    by apply classify_name_labeled. }
  split.
  { intros name f u Hin Himg Hs Hl Hp Hu.
    apply (gallery_of_elem Predicted present name f u Hin Himg); [|exact Hu].
    by apply classify_name_predicted. }
  split; [reflexivity|]. split; [reflexivity|].
  split; [exact (config_images_val_labels files)|].
  split; [exact (config_images_val_pred files)|].
  intros urls. split; [exact (batch_map_size urls)|].
  split; [exact (batch_map_lookup urls)|].
  split; [exact (batch_map_singletons urls)|].
  intros i j Hij. exact (batch_key_inj i j Hij).
Qed.

Lemma gallery_classification_witness :
  "data:image/jpeg;base64,YQ==" ∈
    val_labels (classify (present_of dir_val_labels))
  ∧ config_images dir_val_labels !! "VAL_LABELS"
    = Some (VDict (batch_map ["data:image/jpeg;base64,YQ==";
                              "data:image/jpeg;base64,Yg=="])).
Proof.
  destruct (gallery_classification dir_val_labels)
    as (H1 & _ & _ & _ & H5 & _).
  split.
  - apply (H1 "val_batch0_labels.jpg" (File "val_batch0_labels.jpg" (Some "a")));
      [vm_compute; left|reflexivity..].
  - etrans; [exact H5|]. vm_compute. reflexivity.
Defined.

(** C6: the generic gallery is collected and then dropped.  A readable image
    that matches neither [val_batch] rule is appended to [all_imgs], but no
    key of the record holds that list: the keys of every record are metric
    keys or the two [val_batch] tags, and the directory holding only
    [extra.png] yields the record of a directory without any image. *)
Theorem generic_gallery_not_exposed :
  (∀ files name f u,
     (name, f) ∈ present_of files → is_image name = true →
     classify_name (lower name) = Generic →
     encode_image_to_data_url f = Some u →
     u ∈ all_imgs (classify (present_of files)))
  ∧ (∀ files key,
       is_Some (config_images files !! key) →
       key ∈ ["VAL_LABELS"; "VAL_PRED"] ∨ ∃ k, key ∈ metric_keys_of k)
  ∧ all_imgs (classify (present_of dir_extra)) = [png_url "abc"]
  ∧ config_images dir_extra = absent_record.
Proof.
  split.
  { intros files name f u Hin Himg Hc Hu. rewrite classify_spec.
    cbn [all_imgs]. by eapply gallery_of_elem. }
  split; [exact config_images_keys|].
  split; [vm_compute; reflexivity|].
  apply (bool_decide_unpack _). vm_compute. exact I.
Qed.

(** C9: an unreadable match ends the extension loop of its stem.  With
    [pr_curve.png] unreadable beside a readable [pr_curve.jpg], the first
    candidate naming a readable file is [pr_curve.jpg], yet the resolver
    returns no reference for PR and the record maps PR's canonical key to
    the absent marker; with only an unreadable [pr_curve.jpg] the record
    still gets the key [pr_curve.jpg], holding the absent marker. *)
Theorem unreadable_match_hides_later_extensions :
  first_match (filter (λ f, readable f = true) dir_pr_unreadable)
    (METRIC_ALIASES PR) = Some ("pr_curve", ".jpg")
  ∧ resolve_metric (present_of (filter (λ f, readable f = true)
                                  dir_pr_unreadable)) (METRIC_ALIASES PR)
    = (Some (jpeg_url "abc"), Some ".jpg")
  ∧ resolve_metric (present_of dir_pr_unreadable) (METRIC_ALIASES PR)
    = (None, Some ".png")
  ∧ config_images dir_pr_unreadable !! canonical_png_key PR = Some VNone
  ∧ config_images dir_pr_unreadable !! "pr_curve.jpg" = None
  ∧ config_images [File "pr_curve.jpg" None] !! "pr_curve.jpg" = Some VNone
  ∧ config_images [] !! "pr_curve.jpg" = None.
Proof. repeat split; vm_compute; reflexivity. Qed.

(** ** Sorting by a string key *)

Section SortFacts.
Context {A : Type} (key : A → string).

Lemma insert_by_perm (x : A) (l : list A) : insert_by key x l ≡ₚ x :: l.
Proof.
  induction l as [|y r IH]; cbn [insert_by]; [reflexivity|].
  destruct (String.leb _ _); [reflexivity|].
  rewrite IH. apply Permutation_swap.
Qed.

Lemma sort_by_perm (l : list A) : sort_by key l ≡ₚ l.
Proof.
  induction l as [|x l IH]; [reflexivity|].
  unfold sort_by. cbn [foldr]. rewrite insert_by_perm.
  by apply Permutation_skip.
Qed.

Lemma insert_by_sorted (x : A) (l : list A) :
  StronglySorted (λ a b, String.le (key a) (key b)) l →
  StronglySorted (λ a b, String.le (key a) (key b)) (insert_by key x l).
Proof.
  induction 1 as [|y r Hr IH Hy]; cbn [insert_by].
  - repeat constructor.
  - destruct (String.leb (key x) (key y)) eqn:Hle.
    + constructor; [by constructor|]. constructor.
      * unfold String.le. by rewrite Hle.
      * eapply Forall_impl; [exact Hy|]. intros z Hz. cbn beta in *.
        etrans; [|exact Hz]. unfold String.le. by rewrite Hle.
    + assert (String.le (key y) (key x)) as Hyx.
      { destruct (total String.le (key x) (key y)) as [Hxy|Hyx]; [|done].
        unfold String.le in Hxy. rewrite Hle in Hxy. destruct Hxy. }
      constructor; [exact IH|].
      rewrite insert_by_perm. by constructor.
Qed.

Lemma sort_by_sorted (l : list A) :
  StronglySorted (λ a b, String.le (key a) (key b)) (sort_by key l).
Proof.
  induction l as [|x l IH]; [constructor|].
  unfold sort_by. cbn [foldr]. by apply insert_by_sorted.
Qed.

Lemma sort_by_elem (l : list A) (x : A) : x ∈ sort_by key l ↔ x ∈ l.
Proof. by rewrite sort_by_perm. Qed.
End SortFacts.

(** ** Run discovery *)

Lemma is_config_dir_spec (c : node) :
  is_config_dir c = true
  ↔ is_dir c = true ∧ endswith (node_name c) "_config" = true.
Proof. unfold is_config_dir. apply andb_true_iff. Qed.

Lemma is_run_dir_spec (p : node) :
  is_run_dir p = true
  ↔ ∃ c, c ∈ node_children p
         ∧ is_dir c = true ∧ endswith (node_name c) "_config" = true.
Proof.
  destruct p as [f|name cs]; cbn [is_run_dir node_children].
  - split; [intros H; discriminate H|].
    intros (c & Hc & _). by apply elem_of_nil in Hc.
  - rewrite existsb_exists. split.
    + intros (c & Hin & Hc). exists c.
      split; [by apply list_elem_of_In|by apply is_config_dir_spec].
    + intros (c & Hin & Hc). exists c.
      split; [by apply list_elem_of_In|by apply is_config_dir_spec].
Qed.

Lemma collect_config_images_length (cs : list node) :
  length (collect_config_images cs)
  = length (filter (λ p, is_config_dir p = true) cs).
Proof.
  unfold collect_config_images. cbv zeta.
  by rewrite length_fmap, sort_by_perm.
Qed.

Lemma collect_config_images_nonempty (p : node) :
  is_run_dir p = true → collect_config_images (node_children p) ≠ [].
Proof.
  intros Hrun He. apply (f_equal length) in He.
  rewrite collect_config_images_length in He. cbn [length] in He.
  destruct p as [f|name cs]; [discriminate Hrun|].
  cbn [is_run_dir node_children] in *.
  apply existsb_exists in Hrun as (c & Hin & Hc).
  apply list_elem_of_In in Hin.
  assert (c ∈ filter (λ p, is_config_dir p = true) cs) as Hf.
  { by apply list_elem_of_filter. }
  destruct (filter _ cs); [by apply elem_of_nil in Hf|discriminate He].
Qed.

Lemma collect_config_images_names (cs : list node) (cfg : ConfigImages) :
  cfg ∈ collect_config_images cs →
  ∃ d, d ∈ cs ∧ is_config_dir d = true
       ∧ cfg = mkConfigImages (node_name d)
                 (config_images (files_of (node_children d))).
Proof.
  unfold collect_config_images. cbv zeta.
  intros (d & -> & Hd)%list_elem_of_fmap.
  apply sort_by_elem, list_elem_of_filter in Hd as [Hc Hd].
  by exists d.
Qed.

Lemma run_candidates_spec (root_path : path) (root : node) :
  run_candidates root_path root
  = (if is_run_dir root
     then [(if truthy (node_name root) then node_name root
            else path_str root_path, root_path, root)]
     else [])
    ++ ((λ c, (node_name c, root_path ++ [node_name c], c))
        <$> filter (λ c, is_run_dir c = true) (node_children root)).
Proof.
  unfold run_candidates. f_equal.
  induction (node_children root) as [|c cs IH]; [reflexivity|].
  cbn [omap list_omap]. rewrite filter_cons.
  destruct c as [f|name ds]; cbn [is_dir is_run_dir andb].
  - rewrite decide_False by (intros H; discriminate H). exact IH.
  - destruct (existsb is_config_dir ds).
    + rewrite decide_True by reflexivity. rewrite fmap_cons.
      f_equal. exact IH.
    + rewrite decide_False by (intros H; discriminate H). exact IH.
Qed.

Lemma run_candidates_run (root_path : path) (root : node)
    (c : string * path * node) :
  c ∈ run_candidates root_path root → is_run_dir c.2 = true.
Proof.
  rewrite run_candidates_spec, elem_of_app. intros [Hc|Hc].
  - destruct (is_run_dir root) eqn:Hr; [|by apply elem_of_nil in Hc].
    apply list_elem_of_singleton in Hc as ->. exact Hr.
  - apply list_elem_of_fmap in Hc as (d & -> & Hd).
    by apply list_elem_of_filter in Hd as [Hd _].
Qed.

Lemma app_singleton_ne {B} (l : list B) (x : B) : l ≠ l ++ [x].
Proof.
  intros H. apply (f_equal length) in H. rewrite length_app in H.
  cbn [length] in H. lia.
Qed.

Lemma run_candidates_paths (root_path : path) (root : node) :
  NoDup (node_name <$> node_children root) →
  NoDup ((λ c, c.1.2) <$> run_candidates root_path root).
Proof.
  intros Hnames. rewrite run_candidates_spec, fmap_app, <- list_fmap_compose.
  assert (NoDup ((λ c : node, root_path ++ [node_name c])
                   <$> filter (λ c, is_run_dir c = true) (node_children root)))
    as Hch.
  { rewrite (list_fmap_compose node_name (λ n, root_path ++ [n])).
    apply (NoDup_fmap_2 _).
    eapply sublist_NoDup; [exact Hnames|apply fmap_sublist, sublist_filter]. }
  apply NoDup_app. split; [|split; [|exact Hch]].
  - destruct (is_run_dir root); [apply NoDup_singleton|apply NoDup_nil_2].
  - intros p Hp (d & Hd & _)%list_elem_of_fmap.
    destruct (is_run_dir root); [|by apply elem_of_nil in Hp].
    apply list_elem_of_singleton in Hp. cbn in Hp, Hd. subst p.
    exact (app_singleton_ne _ _ Hd).
Qed.

(** *** The de-duplication loop *)

Lemma keep_paths_sublist (cs : list (string * path * node)) :
  ∀ seen, sublist (keep_paths seen cs) cs.
Proof.
  induction cs as [|c r IH]; intros seen; cbn [keep_paths]; [constructor|].
  destruct (decide _); [apply sublist_cons|apply sublist_skip]; apply IH.
Qed.

Lemma keep_paths_fresh (cs : list (string * path * node)) :
  ∀ seen c, c ∈ keep_paths seen cs → c.1.2 ∉ seen.
Proof.
  induction cs as [|x r IH]; intros seen c; cbn [keep_paths];
    [by rewrite elem_of_nil|].
  destruct (decide _) as [|Hn]; [apply IH|].
  rewrite elem_of_cons. intros [->|Hc]; [exact Hn|].
  apply IH in Hc. set_solver.
Qed.

Lemma keep_paths_NoDup (cs : list (string * path * node)) :
  ∀ seen, NoDup ((λ c, c.1.2) <$> keep_paths seen cs).
Proof.
  induction cs as [|x r IH]; intros seen; cbn [keep_paths];
    [apply NoDup_nil_2|].
  destruct (decide _); [apply IH|].
  rewrite fmap_cons. apply NoDup_cons. split; [|apply IH].
  rewrite list_elem_of_fmap. intros (c & Hp & Hc).
  apply keep_paths_fresh in Hc. set_solver.
Qed.

Lemma keep_paths_covers (cs : list (string * path * node)) :
  ∀ seen c, c ∈ cs →
    c.1.2 ∈ seen ∨ c.1.2 ∈ (λ c, c.1.2) <$> keep_paths seen cs.
Proof.
  induction cs as [|x r IH]; intros seen c; cbn [keep_paths];
    [by rewrite elem_of_nil|].
  rewrite elem_of_cons. intros [->|Hc].
  - destruct (decide _); [by left|]. right. rewrite fmap_cons. left.
  - destruct (decide (x.1.2 ∈ seen)) as [Hx|Hx]; [by apply IH|].
    destruct (IH (seen ∪ {[x.1.2]}) c Hc) as [Hin|Hin].
    + apply elem_of_union in Hin as [Hin|Hin]; [by left|].
      apply elem_of_singleton in Hin. right. rewrite fmap_cons, Hin. left.
    + right. rewrite fmap_cons. by right.
Qed.

Lemma keep_paths_all (cs : list (string * path * node)) :
  ∀ seen,
    NoDup ((λ c, c.1.2) <$> cs) →
    (∀ c, c ∈ cs → c.1.2 ∉ seen) →
    keep_paths seen cs = cs.
Proof.
  induction cs as [|x r IH]; intros seen Hnd Hseen; [reflexivity|].
  cbn [keep_paths]. rewrite fmap_cons in Hnd.
  apply NoDup_cons in Hnd as [Hx Hnd].
  rewrite decide_False by (apply Hseen; left). f_equal.
  apply IH; [exact Hnd|]. intros c Hc Hin.
  apply elem_of_union in Hin as [Hin|Hin].
  - apply (Hseen c); [by right|exact Hin].
  - apply elem_of_singleton in Hin. apply Hx. rewrite <- Hin.
    apply list_elem_of_fmap. by exists c.
Qed.

Lemma foldl_dedup_step (cs : list (string * path * node)) :
  ∀ st,
    (∀ c, c ∈ cs → is_run_dir c.2 = true) →
    (foldl dedup_step st cs).2 = st.2 ++ (mk_run <$> keep_paths st.1 cs).
Proof.
  induction cs as [|c r IH]; intros [seen runs] Hrun.
  { cbn [foldl keep_paths fmap list_fmap snd]. by rewrite app_nil_r. }
  cbn [foldl keep_paths fst snd]. destruct c as [[name p] n].
  cbn [dedup_step fst snd].
  destruct (decide (p ∈ seen)) as [Hp|Hp].
  - apply (IH (seen, runs)). intros c Hc. apply Hrun. by right.
  - assert (collect_config_images (node_children n) ≠ []) as Hne.
    { apply collect_config_images_nonempty, (Hrun (name, p, n)). left. }
    rewrite IH by (intros c Hc; apply Hrun; by right).
    cbn [fst snd]. rewrite fmap_cons.
    destruct (collect_config_images (node_children n)) as [|cfg cfgs] eqn:Hcfg;
      [by destruct Hne|].
    rewrite <- app_assoc. cbn [app]. unfold mk_run at 2. cbn [fst snd].
    by rewrite Hcfg.
Qed.

Lemma discover_runs_spec (parent : path) (name : string)
    (children : list node) :
  discover_runs parent (NDir name children)
  = Some (sort_by (λ r, lower (run_name r))
            (mk_run <$> keep_paths ∅
                          (run_candidates (parent ++ [name])
                             (NDir name children)))).
Proof.
  unfold discover_runs. cbv zeta. cbn [node_name]. f_equal. f_equal.
  rewrite foldl_dedup_step; [reflexivity|].
  intros c Hc. by eapply run_candidates_run.
Qed.

(** C7: run discovery.  A directory qualifies as a run exactly when it
    directly contains a subdirectory whose name ends with [_config].  The
    candidates are the root, if it qualifies, followed by the qualifying
    immediate children of the root in enumeration order.  Every discovered
    run is built from a candidate, every candidate's path is the path of a
    discovered run, no two runs share a path, every run has at least one
    configuration, and the list is sorted by lower-cased run name; when the
    children of the root have distinct names the runs are exactly the
    candidates, reordered.  A root holding [run1/B_config] and
    [run2/C_config] yields the runs [run1] and [run2] and not the root; a
    root holding [A_config] yields the root itself. *)
Theorem run_discovery (parent : path) (name : string)
    (children : list node) :
  let root := NDir name children in
  let root_path := parent ++ [name] in
  ∃ runs,
    discover_runs parent root = Some runs
    ∧ (∀ p, is_run_dir p = true
            ↔ ∃ c, c ∈ node_children p ∧ is_dir c = true
                   ∧ endswith (node_name c) "_config" = true)
    ∧ run_candidates root_path root
      = (if is_run_dir root
         then [(if truthy name then name else path_str root_path,
                root_path, root)]
         else [])
        ++ ((λ c, (node_name c, root_path ++ [node_name c], c))
            <$> filter (λ c, is_run_dir c = true) children)
    ∧ (∀ r, r ∈ runs →
         ∃ c, c ∈ run_candidates root_path root ∧ r = mk_run c)
    ∧ (∀ c, c ∈ run_candidates root_path root →
         ∃ r, r ∈ runs ∧ run_path r = c.1.2)
    ∧ NoDup (run_path <$> runs)
    ∧ (∀ r, r ∈ runs → configs r ≠ [])
    ∧ runs_sorted runs
    ∧ (NoDup (node_name <$> children) →
       runs ≡ₚ mk_run <$> run_candidates root_path root)
    ∧ (run_name <$> default [] (discover_runs [] tree_two_runs)
       = ["run1"; "run2"]
       ∧ run_path <$> default [] (discover_runs [] tree_two_runs)
         = [["root"; "run1"]; ["root"; "run2"]])
    ∧ (run_name <$> default [] (discover_runs [] tree_flat) = ["root"]
       ∧ run_path <$> default [] (discover_runs [] tree_flat) = [["root"]]).
Proof.
  intros root root_path.
  set (cs := run_candidates root_path root).
  set (kept := keep_paths ∅ cs).
  exists (sort_by (λ r, lower (run_name r)) (mk_run <$> kept)).
  assert (∀ r, r ∈ sort_by (λ r, lower (run_name r)) (mk_run <$> kept)
               ↔ ∃ c, c ∈ kept ∧ r = mk_run c) as Hmem.
  { intros r. rewrite sort_by_elem, list_elem_of_fmap. naive_solver. }
  assert (∀ c, c ∈ kept → c ∈ cs) as Hsub.
  { intros c Hc. eapply elem_of_sublist; [exact Hc|apply keep_paths_sublist]. }
  split; [exact (discover_runs_spec parent name children)|].
  split; [exact is_run_dir_spec|].
  split; [exact (run_candidates_spec root_path root)|].
  split.
  { intros r (c & Hc & ->)%Hmem. exists c. split; [by apply Hsub|done]. }
  split.
  { intros c Hc.
    destruct (keep_paths_covers cs ∅ c Hc) as [Hin|Hin];
      [by apply elem_of_empty in Hin|].
    apply list_elem_of_fmap in Hin as (c' & Hp & Hc').
    exists (mk_run c'). split; [apply Hmem; by exists c'|by rewrite Hp]. }
  split.
  { rewrite sort_by_perm, <- list_fmap_compose.
    exact (keep_paths_NoDup cs ∅). }
  split.
  { intros r (c & Hc & ->)%Hmem. cbn [mk_run configs].
    apply collect_config_images_nonempty.
    eapply run_candidates_run, Hsub, Hc. }
  split; [apply sort_by_sorted|].
  split.
  { intros Hnames. rewrite sort_by_perm. unfold kept.
    rewrite keep_paths_all; [reflexivity| |intros c _; apply not_elem_of_empty].
    by apply run_candidates_paths. }
  split; split; vm_compute; reflexivity.
Qed.

Lemma run_discovery_witness :
  ∃ runs,
    discover_runs [] tree_two_runs = Some runs
    ∧ runs ≡ₚ mk_run <$> run_candidates ["root"] tree_two_runs.
Proof.
  destruct (run_discovery [] "root" (node_children tree_two_runs))
    as (runs & H1 & _ & _ & _ & _ & _ & _ & _ & H9 & _).
  exists runs. split; [exact H1|]. apply H9.
  apply (bool_decide_unpack _). vm_compute. exact I.
Defined.

(** * Further properties of the code *)

(** ** The snapshot of a configuration directory *)

Lemma dict_set_keys {V} (k : string) (v : V) (d : list (string * V)) :
  (dict_set k v d).*1 = if decide (k ∈ d.*1) then d.*1 else d.*1 ++ [k].
Proof.
  induction d as [|[k' v'] d IH]; cbn [dict_set].
  - rewrite decide_False by apply not_elem_of_nil. reflexivity.
  - cbn [fmap list_fmap fst]. destruct (String.eqb_spec k k') as [->|Hne].
    + rewrite decide_True by left. reflexivity.
    + cbn [fmap list_fmap fst]. fold (fmap (M:=list) (@fst string V)).
      rewrite IH. destruct (decide (k ∈ d.*1)) as [Hin|Hin].
      * rewrite decide_True by (by right). reflexivity.
      * rewrite decide_False; [reflexivity|].
        intros [?|?]%elem_of_cons; [by apply Hne|by apply Hin].
Qed.

Lemma keep_lower_elem (l : list string) (x : string) :
  x ∈ lower <$> keep ∅ l ↔ x ∈ lower <$> l.
Proof.
  split.
  - intros (w & -> & Hw)%list_elem_of_fmap. apply list_elem_of_fmap.
    exists w. split; [reflexivity|].
    eapply elem_of_sublist; [exact Hw|apply keep_sublist].
  - intros (v & -> & Hv)%list_elem_of_fmap.
    destruct (keep_covers l ∅ v Hv) as [Hin|(w & Hw & Hlow)];
      [by apply elem_of_empty in Hin|].
    apply list_elem_of_fmap. by exists w.
Qed.

Lemma present_of_keys (files : list file) :
  (present_of files).*1 = lower <$> keep ∅ (file_name <$> files).
Proof.
  induction files as [|f files IH] using rev_ind; [reflexivity|].
  rewrite present_of_snoc, dict_set_keys, IH, fmap_app, keep_app, fmap_app.
  cbn [fmap list_fmap keep].
  destruct (decide (lower (file_name f)
                    ∈ lower <$> keep ∅ (file_name <$> files))) as [Hin|Hin].
  - rewrite decide_True; [by rewrite app_nil_r|].
    apply (proj1 (keep_lower_elem _ _)) in Hin.
    apply elem_of_union. right. by apply elem_of_list_to_set.
  - rewrite decide_False; [reflexivity|].
    intros Hs. apply Hin, (proj2 (keep_lower_elem _ _)).
    apply elem_of_union in Hs as [Hs|Hs]; [by apply elem_of_empty in Hs|].
    by apply elem_of_list_to_set in Hs.
Qed.

Lemma dict_get_elem {V} (d : list (string * V)) (k : string) (v : V) :
  NoDup d.*1 → (k, v) ∈ d ↔ dict_get k d = Some v.
Proof.
  induction d as [|[k' v'] d IH]; intros Hnd; cbn [dict_get].
  - split; [by intros ?%elem_of_nil|intros H; discriminate H].
  - cbn [fmap list_fmap fst] in Hnd. apply NoDup_cons in Hnd as [Hk Hnd].
    rewrite elem_of_cons. destruct (String.eqb_spec k k') as [->|Hne].
    + split.
      * intros [Heq|Hin]; [by injection Heq as ->|].
        destruct Hk. apply list_elem_of_fmap. by exists (k', v).
      * intros [= ->]. by left.
    + rewrite <- (IH Hnd). split.
      * intros [Heq|Hin]; [|exact Hin]. injection Heq as -> _. by destruct Hne.
      * by right.
Qed.

(** X1: the snapshot [present] of a directory has one entry per lower-cased
    file name, in the order in which the names are first met; each entry
    holds the file enumerated last among those whose names agree up to case,
    and looking a name up returns exactly that file. *)
Theorem present_snapshot (files : list file) :
  let present := present_of files in
  NoDup present.*1
  ∧ present.*1 = lower <$> keep ∅ (file_name <$> files)
  ∧ (∀ key f, (key, f) ∈ present ↔ file_named files key = Some f)
  ∧ (∀ key, dict_get key present = file_named files key)
  ∧ (∀ f, f ∈ files →
       ∃ g, (lower (file_name f), g) ∈ present
            ∧ g ∈ files ∧ lower (file_name g) = lower (file_name f)).
Proof.
  intros present.
  assert (NoDup present.*1) as Hnd.
  { unfold present. rewrite present_of_keys. apply keep_NoDup. }
  split; [exact Hnd|]. split; [apply present_of_keys|].
  assert (∀ key f, (key, f) ∈ present ↔ file_named files key = Some f) as Hm.
  { intros key f. rewrite (dict_get_elem present key f Hnd).
    unfold present. by rewrite dict_get_present_of. }
  split; [exact Hm|]. split; [apply dict_get_present_of|].
  intros f Hf.
  assert (is_Some (file_named files (lower (lower (file_name f))))) as [g Hg].
  { apply name_present_file_named. unfold name_present.
    rewrite lower_idem. apply list_elem_of_fmap. by exists f. }
  rewrite lower_idem in Hg. exists g. split; [by apply Hm|].
  by apply file_named_Some.
Qed.

(** ** The resolver on directories with unreadable files *)

Lemma scan_exts_stem_hit (files : list file) (stem : string) :
  scan_exts (present_of files) stem ALLOWED_EXTS
  = (λ h : file * string, (encode_image_to_data_url h.1, h.2))
    <$> stem_hit files stem.
Proof.
  rewrite scan_exts_spec. unfold stem_hit.
  destruct (head _) as [ext|]; [|reflexivity]. cbn [mbind option_bind].
  destruct (file_named files _) as [f|]; reflexivity.
Qed.

Lemma scan_stems_unreadable (files : list file) (stems : list string) :
  ∀ st,
    st.1 = None →
    Forall (no_readable_hit files) stems →
    (scan_stems (present_of files) stems st).1 = None.
Proof.
  induction stems as [|s rest IH]; intros st Hst Hall; [exact Hst|].
  apply Forall_cons in Hall as [Hs Hall].
  cbn [scan_stems]. rewrite scan_exts_stem_hit.
  destruct (stem_hit files s) as [[f ext]|] eqn:Hhit; cbn [fmap option_fmap option_map fst snd].
  - rewrite (Hs f ext Hhit). cbn [url_truthy fst]. by apply IH.
  - rewrite Hst. cbn [url_truthy]. by apply IH.
Qed.

Lemma scan_stems_first_readable (files : list file)
    (before after : list string) (stem ext : string) (f : file)
    (url : string) :
  ∀ st,
    st.1 = None →
    Forall (no_readable_hit files) before →
    stem_hit files stem = Some (f, ext) →
    encode_image_to_data_url f = Some url →
    scan_stems (present_of files) (before ++ stem :: after) st
    = (Some url, Some ext).
Proof.
  induction before as [|s rest IH]; intros st Hst Hall Hhit Hu.
  - cbn [app scan_stems]. rewrite scan_exts_stem_hit, Hhit.
    cbn [fmap option_fmap option_map fst snd]. rewrite Hu.
    cbn [url_truthy fst]. by rewrite (encode_truthy _ _ Hu).
  - apply Forall_cons in Hall as [Hs Hall].
    cbn [app scan_stems]. rewrite scan_exts_stem_hit.
    destruct (stem_hit files s) as [[g e]|] eqn:Hg;
      cbn [fmap option_fmap option_map fst snd].
    + rewrite (Hs g e Hg). cbn [url_truthy fst]. by apply IH.
    + rewrite Hst. cbn [url_truthy]. by apply IH.
Qed.

(** X2: what the resolver returns when files may be unreadable.  A stem
    selects the file of its first present extension; a stem whose selected
    file cannot be read is passed over as a whole.  The resolver returns the
    reference and extension of the first stem whose selected file can be
    read, and no reference when there is no such stem. *)
Theorem resolve_metric_exact (files : list file) :
  (∀ before after stem ext f url,
     Forall (no_readable_hit files) before →
     stem_hit files stem = Some (f, ext) →
     encode_image_to_data_url f = Some url →
     resolve_metric (present_of files) (before ++ stem :: after)
     = (Some url, Some ext))
  ∧ (∀ stems,
       Forall (no_readable_hit files) stems →
       (resolve_metric (present_of files) stems).1 = None).
Proof.
  split.
  - intros before after stem ext f url Hall Hhit Hu.
    by apply (scan_stems_first_readable files before after stem ext f url).
  - intros stems Hall. by apply scan_stems_unreadable.
Qed.

Lemma resolve_metric_exact_witness :
  resolve_metric
    (present_of [File "pr_curve.png" None; File "pr-curve.jpg" (Some "abc")])
    (["pr_curve"] ++ "pr-curve" :: ["prcurve"])
  = (Some "data:image/jpeg;base64,YWJj", Some ".jpg").
Proof.
  destruct (resolve_metric_exact
              [File "pr_curve.png" None; File "pr-curve.jpg" (Some "abc")])
    as [H1 _].
  apply (H1 ["pr_curve"] ["prcurve"] "pr-curve" ".jpg"
            (File "pr-curve.jpg" (Some "abc"))).
  - apply Forall_cons. split; [|apply Forall_nil_2].
    intros f ext Hhit. vm_compute in Hhit. injection Hhit as <- _.
    reflexivity.
  - vm_compute. reflexivity.
  - vm_compute. reflexivity.
Defined.

(** ** Independence of the enumeration order *)

Lemma filter_key_length {A} (key : A → string) (k : string) (l : list A) :
  NoDup (key <$> l) → (length (filter (λ x, key x = k) l) ≤ 1)%nat.
Proof.
  induction l as [|x l IH]; intros Hnd; [cbn; lia|].
  rewrite fmap_cons in Hnd. apply NoDup_cons in Hnd as [Hx Hnd].
  rewrite filter_cons. destruct (decide (key x = k)) as [Hk|Hk].
  - assert (filter (λ y, key y = k) l = []) as ->; [|cbn; lia].
    apply filter_none. intros y Hy Hyk. apply Hx.
    apply list_elem_of_fmap. exists y. split; [congruence|exact Hy].
  - by apply IH.
Qed.

Lemma file_named_perm (files files' : list file) (key : string) :
  files ≡ₚ files' →
  NoDup ((λ f, lower (file_name f)) <$> files) →
  file_named files key = file_named files' key.
Proof.
  intros Hp Hnd. unfold file_named.
  pose proof (filter_key_length (λ f, lower (file_name f)) key files Hnd)
    as Hlen.
  assert (filter (λ f, lower (file_name f) = key) files
          ≡ₚ filter (λ f, lower (file_name f) = key) files') as Hf.
  { by rewrite Hp. }
  destruct (filter _ files) as [|x [|y r]]; cbn [length] in Hlen; [| |lia].
  - apply Permutation_nil_l in Hf. by rewrite Hf.
  - apply Permutation_singleton_l in Hf. by rewrite Hf.
Qed.

Lemma scan_exts_ext_eq (p p' : list (string * file)) (stem : string)
    (exts : list string) :
  (∀ key, dict_get key p = dict_get key p') →
  scan_exts p stem exts = scan_exts p' stem exts.
Proof.
  intros Hget. induction exts as [|e exts IH]; [reflexivity|].
  cbn [scan_exts]. by rewrite Hget, IH.
Qed.

Lemma scan_stems_ext_eq (p p' : list (string * file)) (stems : list string) :
  (∀ key, dict_get key p = dict_get key p') →
  ∀ st, scan_stems p stems st = scan_stems p' stems st.
Proof.
  intros Hget. induction stems as [|s rest IH]; intros st; [reflexivity|].
  cbn [scan_stems]. rewrite (scan_exts_ext_eq p p' s _ Hget).
  destruct (url_truthy _); [reflexivity|apply IH].
Qed.

Lemma resolve_metrics_ext_eq (p p' : list (string * file)) :
  (∀ key, dict_get key p = dict_get key p') →
  resolve_metrics p = resolve_metrics p'.
Proof.
  intros Hget. unfold resolve_metrics.
  generalize (∅ : gmap string value).
  induction metric_keys as [|k ks IH]; intros images; [reflexivity|].
  cbn [foldl].
  assert (metric_step p images k = metric_step p' images k) as ->; [|apply IH].
  unfold metric_step, resolve_metric.
  by rewrite (scan_stems_ext_eq p p' _ Hget).
Qed.

(** X3: the metric entries of a record do not depend on the order in which
    the directory is enumerated, as long as no two file names agree up to
    case: two listings of the same files give the same resolved metrics and
    the same entry under every metric key. *)
Theorem metric_entries_order_independent (files files' : list file) :
  files ≡ₚ files' →
  NoDup ((λ f, lower (file_name f)) <$> files) →
  resolve_metrics (present_of files) = resolve_metrics (present_of files')
  ∧ ∀ k key, key ∈ metric_keys_of k →
             config_images files !! key = config_images files' !! key.
Proof.
  intros Hp Hnd.
  assert (resolve_metrics (present_of files)
          = resolve_metrics (present_of files')) as Heq.
  { apply resolve_metrics_ext_eq. intros key.
    rewrite !dict_get_present_of. by apply file_named_perm. }
  split; [exact Heq|]. intros k key Hkey.
  rewrite !(config_images_metric_key _ k key Hkey). by rewrite Heq.
Qed.

Lemma metric_entries_order_independent_witness :
  config_images (dir_precision "abc" "xyz") !! canonical_png_key P
  = config_images (reverse (dir_precision "abc" "xyz")) !! canonical_png_key P.
Proof.
  destruct (metric_entries_order_independent (dir_precision "abc" "xyz")
              (reverse (dir_precision "abc" "xyz"))) as [_ H].
  - apply Permutation_swap.
  - apply (bool_decide_unpack _). vm_compute. exact I.
  - apply (H P). apply canonical_in_keys.
Defined.

(** ** The entries of a record *)

Lemma scan_exts_origin (files : list file) (stem : string)
    (exts : list string) (url e : string) :
  scan_exts (present_of files) stem exts = Some (Some url, e) →
  encodes files url.
Proof.
  induction exts as [|x exts IH]; cbn [scan_exts]; [intros H; discriminate H|].
  rewrite dict_get_present_of.
  destruct (file_named files _) as [f|] eqn:Hf; [|exact IH].
  intros [= Hu _]. exists f. split; [|exact Hu].
  by apply file_named_Some in Hf as [Hf _].
Qed.

Lemma scan_stems_origin (files : list file) (stems : list string) :
  ∀ st url,
    (∀ u, st.1 = Some u → encodes files u) →
    (scan_stems (present_of files) stems st).1 = Some url →
    encodes files url.
Proof.
  induction stems as [|s rest IH]; intros st url Hst; [apply Hst|].
  cbn [scan_stems].
  destruct (scan_exts _ s _) as [[d e]|] eqn:Hscan.
  - assert (∀ u, d = Some u → encodes files u) as Hd.
    { intros u ->. by eapply scan_exts_origin. }
    cbn [fst]. destruct (url_truthy d); [apply Hd|by apply IH].
  - destruct (url_truthy st.1); [apply Hst|by apply IH].
Qed.

Lemma resolve_metric_origin (files : list file) (stems : list string)
    (url : string) :
  (resolve_metric (present_of files) stems).1 = Some url →
  encodes files url.
Proof.
  apply scan_stems_origin. intros u H. discriminate H.
Qed.

Lemma value_of_metric_value (files : list file) (stems : list string) :
  metric_value files (value_of (resolve_metric (present_of files) stems).1).
Proof.
  destruct (resolve_metric _ _).1 as [url|] eqn:Hr; [|by left].
  right. exists url. split; [reflexivity|by eapply resolve_metric_origin].
Qed.

Lemma metric_step_values (files : list file) images k :
  map_Forall (λ _, metric_value files) images →
  map_Forall (λ _, metric_value files)
    (metric_step (present_of files) images k).
Proof.
  intros Him. unfold metric_step.
  pose proof (value_of_metric_value files (METRIC_ALIASES k)) as Hv.
  destruct (resolve_metric _ _) as [d e]. cbn [fst] in Hv.
  destruct e as [ext|]; [destruct (_ && _)|];
    repeat (apply map_Forall_insert_2; [exact Hv|]); exact Him.
Qed.

Lemma resolve_metrics_values (files : list file) :
  map_Forall (λ _, metric_value files) (resolve_metrics (present_of files)).
Proof.
  unfold resolve_metrics.
  assert (map_Forall (λ _, metric_value files) (∅ : gmap string value))
    as Hempty by apply map_Forall_empty.
  revert Hempty. generalize (∅ : gmap string value).
  induction metric_keys as [|k ks IH]; intros images Him; [exact Him|].
  cbn [foldl]. by apply IH, metric_step_values.
Qed.

Lemma cm_fallback_values (files : list file) (images : gmap string value) :
  map_Forall (λ _, metric_value files) images →
  map_Forall (λ _, metric_value files) (cm_fallback images).
Proof.
  intros Him. rewrite cm_fallback_eq. destruct (_ && _); [|exact Him].
  apply map_Forall_insert_2; [|exact Him]. unfold py_get.
  destruct (images !! canonical_png_key CM) as [v|] eqn:Hv; [|by left].
  exact (Him _ _ Hv).
Qed.

(** X4: what a record can hold.  Every entry is either one of the two
    gallery tags, holding the categorized mapping of a non-empty gallery
    (the flat-list alternative of the source is never taken), or a metric
    key, holding the absent marker or the encoding of a file of that
    directory. *)
Theorem record_entries (files : list file) (key : string) (v : value) :
  config_images files !! key = Some v →
  (key = "VAL_LABELS"
   ∧ gallery_of Labeled (present_of files) ≠ []
   ∧ v = VDict (batch_map (gallery_of Labeled (present_of files))))
  ∨ (key = "VAL_PRED"
     ∧ gallery_of Predicted (present_of files) ≠ []
     ∧ v = VDict (batch_map (gallery_of Predicted (present_of files))))
  ∨ ((∃ k, key ∈ metric_keys_of k) ∧ metric_value files v).
Proof.
  intros Hv.
  destruct (config_images_keys files key) as [Htag|[k Hk]]; [by eexists| |].
  - rewrite !elem_of_cons, elem_of_nil in Htag.
    destruct Htag as [->|[->|[]]]; [left|right; left].
    + rewrite config_images_val_labels in Hv.
      destruct (gallery_of Labeled _) as [|u us]; [discriminate Hv|].
      injection Hv as <-. by split; [|split].
    + rewrite config_images_val_pred in Hv.
      destruct (gallery_of Predicted _) as [|u us]; [discriminate Hv|].
      injection Hv as <-. by split; [|split].
  - right. right. split; [by exists k|].
    rewrite (config_images_metric_key files k key Hk) in Hv.
    exact (cm_fallback_values files _ (resolve_metrics_values files) _ _ Hv).
Qed.

Lemma record_entries_witness :
  (∃ k, "pr_curve.jpg" ∈ metric_keys_of k)
  ∧ metric_value dir_pr_jpg (VStr "data:image/jpeg;base64,YWJj").
Proof.
  destruct (record_entries dir_pr_jpg "pr_curve.jpg"
              (VStr "data:image/jpeg;base64,YWJj")) as [H|[H|H]].
  - vm_compute. reflexivity.
  - destruct H as [H _]. discriminate H.
  - destruct H as [H _]. discriminate H.
  - exact H.
Defined.

(** ** The three galleries *)

Lemma gallery_of_cons kind (item : string * file)
    (rest : list (string * file)) :
  gallery_of kind (item :: rest)
  = gallery_of kind [item] ++ gallery_of kind rest.
Proof. apply (gallery_of_app kind [item] rest). Qed.

Lemma gallery_of_sublist kind (present : list (string * file)) :
  sublist (gallery_of kind present) (image_urls present).
Proof.
  induction present as [|item rest IH]; [constructor|].
  unfold gallery_of, image_urls in *. cbn [omap list_omap].
  destruct (is_image item.1); [|exact IH].
  destruct (encode_image_to_data_url item.2) as [u|]; [|exact IH].
  destruct (decide _); [by apply sublist_skip|by apply sublist_cons].
Qed.

Lemma gallery_of_partition (present : list (string * file)) :
  gallery_of Labeled present ++ gallery_of Predicted present
  ++ gallery_of Generic present ≡ₚ image_urls present.
Proof.
  induction present as [|item rest IH]; [reflexivity|].
  rewrite !(gallery_of_cons _ item rest).
  unfold gallery_of at 1 3 5. unfold image_urls at 1.
  cbn [omap list_omap]. fold (image_urls rest).
  destruct (is_image item.1); [|exact IH].
  destruct (encode_image_to_data_url item.2) as [u|]; [|exact IH].
  destruct (classify_name (lower item.1));
    repeat (first [rewrite decide_True by reflexivity
                  |rewrite decide_False by (intros H; discriminate H)]);
    cbn [app]; rewrite <- IH.
  - reflexivity.
  - by rewrite <- Permutation_middle.
  - by rewrite app_assoc, <- Permutation_middle, <- app_assoc.
Qed.

(** X5: the three galleries partition the readable images.  Taken
    together, the labeled, predicted and generic lists hold the reference
    of every readable image file of the directory exactly once, and each
    list keeps the encounter order. *)
Theorem galleries_partition (files : list file) :
  let present := present_of files in
  let g := classify present in
  val_labels g ++ val_preds g ++ all_imgs g ≡ₚ image_urls present
  ∧ sublist (val_labels g) (image_urls present)
  ∧ sublist (val_preds g) (image_urls present)
  ∧ sublist (all_imgs g) (image_urls present)
  ∧ length (val_labels g) + length (val_preds g) + length (all_imgs g)
    = length (image_urls present).
Proof.
  intros present g. unfold g. rewrite classify_spec.
  cbn [val_labels val_preds all_imgs].
  split; [apply gallery_of_partition|].
  split; [apply gallery_of_sublist|]. split; [apply gallery_of_sublist|].
  split; [apply gallery_of_sublist|].
  rewrite <- (gallery_of_partition present), !length_app. lia.
Qed.

(** ** The stable sort *)

Section SortStable.
Context {A : Type} (key : A → string).

Lemma insert_by_filter (k : string) (x : A) (l : list A) :
  filter (λ y, key y = k) (insert_by key x l)
  = filter (λ y, key y = k) (x :: l).
Proof.
  induction l as [|y r IH]; cbn [insert_by]; [reflexivity|].
  destruct (String.leb (key x) (key y)) eqn:Hle; [reflexivity|].
  rewrite filter_cons, IH, !filter_cons.
  destruct (decide (key y = k)) as [Hy|Hy]; [|reflexivity].
  destruct (decide (key x = k)) as [Hx|Hx]; [|reflexivity].
  exfalso. rewrite Hx, <- Hy in Hle.
  assert (String.le (key y) (key y)) as Hrefl by reflexivity.
  unfold String.le in Hrefl. rewrite Hle in Hrefl. destruct Hrefl.
Qed.

Lemma sort_by_filter (k : string) (l : list A) :
  filter (λ y, key y = k) (sort_by key l) = filter (λ y, key y = k) l.
Proof.
  induction l as [|x l IH]; [reflexivity|].
  unfold sort_by. cbn [foldr]. fold (sort_by key l).
  by rewrite insert_by_filter, !filter_cons, IH.
Qed.
End SortStable.

(** X6: the sort used for configurations and runs is a stable sort: its
    result is a rearrangement of the input, ascending in the key, and the
    elements that share a key keep their relative order. *)
Theorem sort_by_stable {A : Type} (key : A → string) (l : list A) :
  sort_by key l ≡ₚ l
  ∧ StronglySorted (λ a b, String.le (key a) (key b)) (sort_by key l)
  ∧ ∀ k, filter (λ y, key y = k) (sort_by key l)
         = filter (λ y, key y = k) l.
Proof.
  split; [apply sort_by_perm|]. split; [apply sort_by_sorted|].
  intros k. apply sort_by_filter.
Qed.

(** ** The configurations of a run *)

Lemma StronglySorted_fmap_2 {A B} (R : B → B → Prop) (f : A → B)
    (l : list A) :
  StronglySorted (λ a b, R (f a) (f b)) l → StronglySorted R (f <$> l).
Proof.
  induction 1 as [|x l Hl IH Hx]; [constructor|].
  rewrite fmap_cons. constructor; [exact IH|].
  apply Forall_fmap. exact Hx.
Qed.

(** X7: the configurations collected for a run are exactly the immediate
    subdirectories whose name ends with [_config]: one configuration per
    such directory, named after it and built from its regular files, in
    ascending order of the lower-cased name; plain files and other
    directories contribute nothing. *)
Theorem collect_config_images_sorted (children : list node) :
  let out := collect_config_images children in
  config_name <$> out
  ≡ₚ node_name <$> filter (λ p, is_config_dir p = true) children
  ∧ StronglySorted (λ a b, String.le (lower a) (lower b)) (config_name <$> out)
  ∧ (∀ cfg, cfg ∈ out
       ↔ ∃ d, d ∈ children ∧ is_dir d = true
              ∧ endswith (node_name d) "_config" = true
              ∧ cfg = mkConfigImages (node_name d)
                        (config_images (files_of (node_children d))))
  ∧ length out = length (filter (λ p, is_config_dir p = true) children).
Proof.
  intros out. unfold out, collect_config_images. cbv zeta.
  set (dirs := filter (λ p, is_config_dir p = true) children).
  split.
  { rewrite <- list_fmap_compose. by rewrite sort_by_perm. }
  split.
  { rewrite <- list_fmap_compose. apply StronglySorted_fmap_2.
    apply (sort_by_sorted (λ p, lower (node_name p))). }
  split.
  { intros cfg. rewrite list_elem_of_fmap. split.
    - intros (d & -> & Hd).
      apply sort_by_elem, list_elem_of_filter in Hd as [Hc Hd].
      apply is_config_dir_spec in Hc as [? ?]. by exists d.
    - intros (d & Hd & Hdir & Hname & ->). exists d. split; [reflexivity|].
      apply sort_by_elem, list_elem_of_filter. split; [|exact Hd].
      by apply is_config_dir_spec. }
  by rewrite length_fmap, sort_by_perm.
Qed.

(** ** Discovery on roots without runs *)




(** ** MIME types *)

Lemma lower_ascii_dot (c : ascii) :
  Ascii.eqb (lower_ascii c) "." = Ascii.eqb c ".".
Proof. destruct c as [[] [] [] [] [] [] [] []]; reflexivity. Qed.

Lemma from_last_dot_lower (s : string) :
  from_last_dot (lower s) = lower <$> from_last_dot s.
Proof.
  induction s as [|c r IH]; [reflexivity|].
  cbn [lower from_last_dot]. rewrite IH, lower_ascii_dot.
  destruct (from_last_dot r); cbn [fmap option_fmap option_map];
    [reflexivity|].
  destruct (Ascii.eqb c "."); reflexivity.
Qed.

Lemma path_suffix_lower (name : string) :
  path_suffix (lower name) = lower (path_suffix name).
Proof.
  destruct name as [|c r]; [reflexivity|].
  cbn [lower path_suffix]. rewrite from_last_dot_lower.
  destruct (from_last_dot r) as [t|]; cbn [fmap option_fmap option_map];
    [|reflexivity].
  rewrite length_lower. destruct (Nat.eqb _ 1); reflexivity.
Qed.

Lemma guess_mime_type_lower (name : string) :
  guess_mime_type (lower name) = guess_mime_type name.
Proof.
  unfold guess_mime_type. cbv zeta. by rewrite path_suffix_lower, lower_idem.
Qed.

Lemma from_last_dot_app (r ext t : string) :
  from_last_dot ext = Some t → from_last_dot (r +:+ ext) = Some t.
Proof.
  intros Ht. induction r as [|c r IH]; [exact Ht|].
  rewrite append_cons. cbn [from_last_dot]. by rewrite IH.
Qed.

Lemma path_suffix_allowed (stem ext : string) :
  stem ≠ "" → ext ∈ ALLOWED_EXTS → path_suffix (stem +:+ ext) = ext.
Proof.
  intros Hstem Hext. destruct stem as [|c r]; [by destruct Hstem|].
  rewrite append_cons. cbn [path_suffix].
  unfold ALLOWED_EXTS in Hext. rewrite !elem_of_cons, elem_of_nil in Hext.
  destruct Hext as [->|[->|[->|[->|[->|[]]]]]];
    (erewrite from_last_dot_app by reflexivity); reflexivity.
Qed.

Lemma lower_nonempty (s : string) : s ≠ "" → lower s ≠ "".
Proof. destruct s; [done|]. intros _ H. discriminate H. Qed.

Lemma guess_mime_type_candidate (name stem ext : string) :
  stem ≠ "" → ext ∈ ALLOWED_EXTS →
  lower name = lower (stem +:+ ext) →
  (ext, guess_mime_type name) ∈ mime_table.
Proof.
  intros Hstem Hext Hname.
  rewrite <- guess_mime_type_lower, Hname, lower_app.
  rewrite (allowed_ext_lower ext Hext). unfold guess_mime_type. cbv zeta.
  rewrite (path_suffix_allowed _ ext (lower_nonempty _ Hstem) Hext).
  unfold ALLOWED_EXTS in Hext. rewrite !elem_of_cons, elem_of_nil in Hext.
  unfold mime_table.
  destruct Hext as [->|[->|[->|[->|[->|[]]]]]]; cbn;
    rewrite !elem_of_cons; auto 10.
Qed.

(** X9: the MIME type depends on the file name only up to case; a name
    made of a non-empty stem and an allowed extension, in any letter case,
    gets the image type of that extension; and a name that consists of an
    extension alone has no suffix and gets the generic binary type. *)
Theorem guess_mime_type_spec :
  (∀ name, guess_mime_type (lower name) = guess_mime_type name)
  ∧ (∀ name stem ext,
       stem ≠ "" → ext ∈ ALLOWED_EXTS →
       lower name = lower (stem +:+ ext) →
       (ext, guess_mime_type name) ∈ mime_table)
  ∧ (∀ name ext,
       ext ∈ ALLOWED_EXTS → lower name = ext →
       guess_mime_type name = "application/octet-stream")
  ∧ (∀ name, from_last_dot name = None →
       guess_mime_type name = "application/octet-stream").
Proof.
  split; [exact guess_mime_type_lower|].
  split; [exact guess_mime_type_candidate|]. split.
  - intros name ext Hext Hname. rewrite <- guess_mime_type_lower, Hname.
    unfold ALLOWED_EXTS in Hext. rewrite !elem_of_cons, elem_of_nil in Hext.
    destruct Hext as [->|[->|[->|[->|[->|[]]]]]]; reflexivity.
  - intros name Hdot. unfold guess_mime_type. cbv zeta.
    assert (path_suffix name = "") as ->; [|reflexivity].
    destruct name as [|c r]; [reflexivity|]. cbn [path_suffix].
    cbn [from_last_dot] in Hdot.
    destruct (from_last_dot r); [discriminate Hdot|reflexivity].
Qed.

Lemma guess_mime_type_spec_witness :
  (".jpg", guess_mime_type "PR_curve.JPG") ∈ mime_table
  ∧ guess_mime_type ".PNG" = "application/octet-stream".
Proof.
  destruct guess_mime_type_spec as (_ & H2 & H3 & _). split.
  - apply (H2 "PR_curve.JPG" "pr_curve" ".jpg");
      [intros H; discriminate H|right; left|reflexivity].
  - apply (H3 ".PNG" ".png"); [left|reflexivity].
Defined.

(** ** The format of a resolved reference *)

Lemma scan_exts_hit (files : list file) (stem : string) (exts : list string)
    (d : option string) (e : string) :
  scan_exts (present_of files) stem exts = Some (d, e) →
  e ∈ exts
  ∧ ∃ f, f ∈ files ∧ lower (file_name f) = lower (stem +:+ e)
         ∧ d = encode_image_to_data_url f.
Proof.
  induction exts as [|x exts IH]; cbn [scan_exts]; [intros H; discriminate H|].
  rewrite dict_get_present_of.
  destruct (file_named files _) as [f|] eqn:Hf.
  - intros [= <- <-]. split; [left|]. exists f.
    apply file_named_Some in Hf as [Hin Hname]. by split; [|split].
  - intros [He Hx]%IH. split; [by right|exact Hx].
Qed.

Lemma encode_resolved_from (files : list file) (stems : list string)
    (stem ext : string) (f : file) (url : string) :
  stem ≠ "" → stem ∈ stems → ext ∈ ALLOWED_EXTS → f ∈ files →
  lower (file_name f) = lower (stem +:+ ext) →
  encode_image_to_data_url f = Some url →
  resolved_from files stems url (Some ext).
Proof.
  intros Hne Hstem Hext Hf Hname Hu. unfold encode_image_to_data_url in Hu.
  destruct (file_bytes f) as [bytes|] eqn:Hb; [|discriminate Hu].
  injection Hu as <-.
  exists stem, ext, f, bytes, (guess_mime_type (file_name f)).
  repeat (split; [done|]). split; [|reflexivity].
  by apply (guess_mime_type_candidate _ stem).
Qed.

Lemma scan_stems_resolved_from (files : list file) (all stems : list string) :
  Forall (λ s, s ≠ "") all →
  (∀ s, s ∈ stems → s ∈ all) →
  ∀ st url,
    (∀ u, st.1 = Some u → resolved_from files all u st.2) →
    (scan_stems (present_of files) stems st).1 = Some url →
    resolved_from files all url (scan_stems (present_of files) stems st).2.
Proof.
  intros Hall. induction stems as [|s rest IH]; intros Hsub st url Hst;
    [apply Hst|].
  assert (∀ s', s' ∈ rest → s' ∈ all) as Hrest.
  { intros s' Hs'. apply Hsub. by right. }
  assert (s ∈ all) as Hs by (apply Hsub; left).
  cbn [scan_stems].
  destruct (scan_exts _ s _) as [[d e]|] eqn:Hscan.
  - apply scan_exts_hit in Hscan as (He & f & Hf & Hname & ->).
    assert (∀ u, encode_image_to_data_url f = Some u →
                 resolved_from files all u (Some e)) as Hd.
    { intros u Hu. apply (encode_resolved_from files all s e f u); try done.
      by apply (proj1 (Forall_forall _ _) Hall). }
    cbn [fst]. destruct (url_truthy _); [apply Hd|].
    apply (IH Hrest). exact Hd.
  - destruct (url_truthy st.1); [apply Hst|]. by apply (IH Hrest).
Qed.

Lemma expand_with_box_nonempty (stems : list string) :
  Forall (λ s, s ≠ "") stems → Forall (λ s, s ≠ "") (expand_with_box stems).
Proof.
  intros Hall. apply Forall_forall. intros w Hw.
  rewrite expand_with_box_keep in Hw.
  assert (w ∈ stems ≫= box_variants) as Hin.
  { eapply elem_of_sublist; [exact Hw|apply keep_sublist]. }
  apply list_elem_of_bind in Hin as (s & Hv & Hs).
  pose proof (proj1 (Forall_forall _ _) Hall s Hs) as Hne.
  unfold box_variants in Hv. rewrite !elem_of_cons, elem_of_nil in Hv.
  destruct Hv as [->|[->|[->|[->|[]]]]]; [exact Hne|..];
    intros H; discriminate H.
Qed.

Lemma METRIC_ALIASES_stems_nonempty (k : metric_key) :
  Forall (λ s, s ≠ "") (METRIC_ALIASES k).
Proof.
  with_strategy transparent [METRIC_ALIASES] unfold METRIC_ALIASES.
  apply expand_with_box_nonempty.
  destruct k; repeat (apply Forall_cons; split; [intros H; discriminate H|]);
    apply Forall_nil_2.
Qed.

(** X10: every reference the resolver returns is a base64 data URL of an
    image.  When the stems are non-empty, as all alias lists are, a
    returned reference comes with its extension and is
    [data:<mime>;base64,<bytes in base64>] for a readable file of the
    directory whose name is, up to case, a stem followed by that extension,
    [<mime>] being the image type of the extension. *)
Theorem resolved_reference_format (files : list file) (stems : list string)
    (url : string) :
  Forall (λ s, s ≠ "") stems →
  (resolve_metric (present_of files) stems).1 = Some url →
  resolved_from files stems url (resolve_metric (present_of files) stems).2
  ∧ ∀ k, Forall (λ s, s ≠ "") (METRIC_ALIASES k).
Proof.
  intros Hall Hr. split; [|exact METRIC_ALIASES_stems_nonempty].
  apply (scan_stems_resolved_from files stems stems Hall); [done| |exact Hr].
  intros u H. discriminate H.
Qed.

Lemma resolved_reference_format_witness :
  resolved_from dir_pr_jpg ["pr_curve"] "data:image/jpeg;base64,YWJj"
    (Some ".jpg").
Proof.
  destruct (resolved_reference_format dir_pr_jpg ["pr_curve"]
              "data:image/jpeg;base64,YWJj") as [H _].
  - apply Forall_cons. split; [intros H; discriminate H|apply Forall_nil_2].
  - vm_compute. reflexivity.
  - exact H.
Defined.

(** ** Extending the table of base stems *)

(** X11: appending base stems only appends aliases.  The expansion of a
    list of base stems is a prefix of the expansion of any extension of
    that list, so the precedence among the existing aliases never changes;
    every alias is a box variant of some base stem; and the expansion of
    the empty list is empty. *)
Theorem expand_with_box_extends (stems more : list string) :
  expand_with_box stems `prefix_of` expand_with_box (stems ++ more)
  ∧ (∀ w, w ∈ expand_with_box stems →
          ∃ s, s ∈ stems ∧ w ∈ box_variants s)
  ∧ (∀ s, s ∈ stems → ∃ w, w ∈ expand_with_box stems ∧ lower w = lower s)
  ∧ expand_with_box [] = [].
Proof.
  split.
  { rewrite !expand_with_box_keep, bind_app, keep_app. by eexists. }
  split.
  { intros w Hw. rewrite expand_with_box_keep in Hw.
    assert (w ∈ stems ≫= box_variants) as Hin.
    { eapply elem_of_sublist; [exact Hw|apply keep_sublist]. }
    apply list_elem_of_bind in Hin as (s & Hv & Hs). by exists s. }
  split; [|reflexivity].
  intros s Hs. rewrite expand_with_box_keep.
  destruct (keep_covers (stems ≫= box_variants) ∅ s) as [Hin|Hw].
  - apply list_elem_of_bind. exists s. split; [left|exact Hs].
  - by apply elem_of_empty in Hin.
  - exact Hw.
Qed.

(** ** Files without an image extension *)

Lemma filter_dict_set {V} (k : string) (v : V) (d : list (string * V)) :
  filter (λ e, is_image e.1 = true) (dict_set k v d)
  = if decide (is_image k = true)
    then dict_set k v (filter (λ e, is_image e.1 = true) d)
    else filter (λ e, is_image e.1 = true) d.
Proof.
  induction d as [|[k' v'] d IH]; cbn [dict_set].
  - rewrite filter_cons, filter_nil. cbn [fst].
    destruct (decide (is_image k = true)); reflexivity.
  - destruct (String.eqb_spec k k') as [<-|Hne].
    + rewrite !filter_cons. cbn [fst].
      destruct (decide (is_image k = true)); [|reflexivity].
      cbn [dict_set]. by rewrite String.eqb_refl.
    + rewrite !filter_cons, IH. cbn [fst].
      destruct (decide (is_image k' = true)), (decide (is_image k = true));
        try reflexivity.
      cbn [dict_set]. by rewrite (proj2 (String.eqb_neq k k') Hne).
Qed.

Lemma present_of_filter (files : list file) :
  filter (λ e, is_image e.1 = true) (present_of files)
  = present_of (filter (λ f, is_image (lower (file_name f)) = true) files).
Proof.
  induction files as [|f files IH] using rev_ind; [reflexivity|].
  rewrite present_of_snoc, filter_app, filter_cons, filter_nil.
  rewrite filter_dict_set, IH.
  destruct (decide (is_image (lower (file_name f)) = true)).
  - by rewrite present_of_snoc.
  - by rewrite app_nil_r.
Qed.

Lemma dict_get_filter {V} (key : string) (d : list (string * V)) :
  is_image key = true →
  dict_get key (filter (λ e, is_image e.1 = true) d) = dict_get key d.
Proof.
  intros Hkey. induction d as [|[k' v'] d IH]; [reflexivity|].
  rewrite filter_cons. cbn [fst dict_get].
  destruct (decide (is_image k' = true)) as [Hk|Hk]; cbn [dict_get].
  - by rewrite IH.
  - destruct (String.eqb_spec key k') as [->|_]; [by destruct Hk|exact IH].
Qed.

Lemma scan_exts_image_eq (p p' : list (string * file)) (stem : string)
    (exts : list string) :
  (∀ key, is_image key = true → dict_get key p = dict_get key p') →
  (∀ e, e ∈ exts → e ∈ ALLOWED_EXTS) →
  scan_exts p stem exts = scan_exts p' stem exts.
Proof.
  intros Hget. induction exts as [|e exts IH]; intros Hsub; [reflexivity|].
  cbn [scan_exts].
  rewrite Hget by (apply is_image_candidate, Hsub; left).
  rewrite IH; [reflexivity|]. intros x Hx. apply Hsub. by right.
Qed.

Lemma resolve_metrics_image_eq (p p' : list (string * file)) :
  (∀ key, is_image key = true → dict_get key p = dict_get key p') →
  resolve_metrics p = resolve_metrics p'.
Proof.
  intros Hget.
  assert (∀ stems st, scan_stems p stems st = scan_stems p' stems st) as Hs.
  { induction stems as [|s rest IH]; intros st; [reflexivity|].
    cbn [scan_stems]. rewrite (scan_exts_image_eq p p' s _ Hget) by done.
    destruct (url_truthy _); [reflexivity|apply IH]. }
  unfold resolve_metrics. generalize (∅ : gmap string value).
  induction metric_keys as [|k ks IH]; intros images; [reflexivity|].
  cbn [foldl].
  assert (metric_step p images k = metric_step p' images k) as ->; [|apply IH].
  unfold metric_step, resolve_metric. by rewrite Hs.
Qed.

Lemma gallery_of_filter kind (present : list (string * file)) :
  gallery_of kind (filter (λ e, is_image e.1 = true) present)
  = gallery_of kind present.
Proof.
  induction present as [|item rest IH]; [reflexivity|].
  rewrite filter_cons. unfold gallery_of in *. cbn [omap list_omap].
  destruct (decide (is_image item.1 = true)) as [Hi|Hi].
  - cbn [omap list_omap]. by rewrite IH.
  - apply not_true_is_false in Hi. by rewrite Hi.
Qed.

(** X12: files without an allowed image extension never influence a
    record: the record of a directory is the record of the directory with
    all such files removed. *)
Theorem non_image_files_ignored (files : list file) :
  config_images files
  = config_images (filter (λ f, is_image (lower (file_name f)) = true) files).
Proof.
  unfold config_images. cbv zeta. rewrite !classify_spec.
  cbn [val_labels val_preds]. rewrite <- present_of_filter.
  rewrite !gallery_of_filter.
  rewrite (resolve_metrics_image_eq (present_of files)
             (filter (λ e, is_image e.1 = true) (present_of files)));
    [reflexivity|].
  intros key Hkey. symmetry.
  by apply dict_get_filter.
Qed.

(** ** The base64 encoding loses nothing *)

Lemma string_ind3 (Q : string → Prop) :
  Q "" →
  (∀ a, Q (String a "")) →
  (∀ a b, Q (String a (String b ""))) →
  (∀ a b c r, Q r → Q (String a (String b (String c r)))) →
  ∀ s, Q s.
Proof.
  intros H0 H1 H2 H3 s.
  assert (Q s ∧ (∀ a, Q (String a s)) ∧ ∀ a b, Q (String a (String b s)))
    as [Hs _]; [|exact Hs].
  induction s as [|c r (IH0 & IH1 & IH2)]; [by split; [|split]|].
  split; [apply IH1|]. split; [intros a; apply IH2|].
  intros a b. by apply H3.
Qed.

Lemma b64_char_valid (n : N) :
  (n < 64)%N →
  b64_index (b64_char n) = n ∧ Ascii.eqb (b64_char n) "=" = false.
Proof.
  intros Hn.
  assert (Forall (λ n, b64_index (b64_char n) = n
                       ∧ Ascii.eqb (b64_char n) "=" = false)
            (N.of_nat <$> seq 0 64)) as Hall.
  { apply (bool_decide_unpack _). vm_compute. exact I. }
  apply (proj1 (Forall_forall _ _) Hall), list_elem_of_fmap.
  exists (N.to_nat n). split; [by rewrite N2Nat.id|].
  apply elem_of_seq. lia.
Qed.

Lemma b64_arith (x y z : N) :
  (x < 256 → y < 256 → z < 256 →
   x / 4 < 64 ∧ (x mod 4) * 16 < 64 ∧ (x mod 4) * 16 + y / 16 < 64
   ∧ (y mod 16) * 4 < 64 ∧ (y mod 16) * 4 + z / 64 < 64 ∧ z mod 64 < 64
   ∧ x / 4 * 4 + (x mod 4) * 16 / 16 = x
   ∧ x / 4 * 4 + ((x mod 4) * 16 + y / 16) / 16 = x
   ∧ ((x mod 4) * 16 + y / 16) mod 16 * 16 + (y mod 16) * 4 / 4 = y
   ∧ ((x mod 4) * 16 + y / 16) mod 16 * 16
     + ((y mod 16) * 4 + z / 64) / 4 = y
   ∧ ((y mod 16) * 4 + z / 64) mod 4 * 64 + z mod 64 = z)%N.
Proof.
  intros Hx Hy Hz. repeat split; zify; Z.to_euclidean_division_equations; lia.
Qed.

Lemma b64decode_b64encode (s : string) : b64decode (b64encode s) = s.
Proof.
  induction s as [|a|a b|a b c r IH] using string_ind3; [reflexivity|..].
  - destruct (b64_arith (N_of_ascii a) 0 0)
      as (H1 & H2 & _ & _ & _ & _ & E1 & _);
      [apply N_ascii_bounded|done|done|].
    cbn [b64encode b64decode]. cbv zeta.
    rewrite (proj1 (b64_char_valid _ H1)), (proj1 (b64_char_valid _ H2)), E1.
    by rewrite ascii_N_embedding.
  - destruct (b64_arith (N_of_ascii a) (N_of_ascii b) 0)
      as (H1 & _ & H2 & H3 & _ & _ & _ & E1 & E2 & _);
      [apply N_ascii_bounded|apply N_ascii_bounded|done|].
    cbn [b64encode b64decode]. cbv zeta.
    rewrite (proj2 (b64_char_valid _ H3)).
    rewrite (proj1 (b64_char_valid _ H1)), (proj1 (b64_char_valid _ H2)),
      (proj1 (b64_char_valid _ H3)), E1, E2.
    by rewrite !ascii_N_embedding.
  - destruct (b64_arith (N_of_ascii a) (N_of_ascii b) (N_of_ascii c))
      as (H1 & _ & H2 & _ & H3 & H4 & _ & E1 & _ & E2 & E3);
      [apply N_ascii_bounded..|].
    cbn [b64encode b64decode]. cbv zeta.
    rewrite (proj2 (b64_char_valid _ H3)), (proj2 (b64_char_valid _ H4)).
    rewrite (proj1 (b64_char_valid _ H1)), (proj1 (b64_char_valid _ H2)),
      (proj1 (b64_char_valid _ H3)), (proj1 (b64_char_valid _ H4)),
      E1, E2, E3, IH.
    by rewrite !ascii_N_embedding.
Qed.

Lemma b64encode_length (s : string) :
  String.length (b64encode s) = 4 * ((String.length s + 2) / 3).
Proof.
  induction s as [|a|a b|a b c r IH] using string_ind3; [reflexivity..|].
  cbn [b64encode String.length]. cbv zeta. cbn [String.length]. rewrite IH.
  replace (S (S (S (String.length r))) + 2) with (String.length r + 2 + 1 * 3)
    by lia.
  rewrite Nat.div_add by lia. lia.
Qed.

(** X13: the encoding of a file loses nothing.  [b64decode] undoes
    [b64encode], the base64 text of [n] bytes has [4 * ceil(n / 3)]
    characters, and two readable files of the same name get the same
    reference only if their contents are equal. *)
Theorem encode_image_injective (name : string) (b1 b2 : string) :
  encode_image_to_data_url (File name (Some b1))
  = encode_image_to_data_url (File name (Some b2)) →
  b1 = b2
  ∧ b64decode (b64encode b1) = b1
  ∧ String.length (b64encode b1) = 4 * ((String.length b1 + 2) / 3).
Proof.
  intros Heq. split; [|split; [apply b64decode_b64encode
                              |apply b64encode_length]].
  unfold encode_image_to_data_url in Heq. cbn [file_bytes file_name] in Heq.
  injection Heq as Heq. do 3 apply (inj (String.app _)) in Heq.
  by rewrite <- (b64decode_b64encode b1), Heq, b64decode_b64encode.
Qed.

Lemma encode_image_injective_witness :
  b64decode (b64encode "Man") = "Man"
  ∧ String.length (b64encode "Man") = 4 * ((String.length "Man" + 2) / 3).
Proof.
  destruct (encode_image_injective "a.png" "Man" "Man") as (_ & H2 & H3);
    [reflexivity|by split].
Defined.
